(** * femwell: layer tiling and the shapely/gmsh geometry registry

    A shallow embedding of [mesh.py]: the [MeshTracker] registry of points and
    boundary segments, the loop and surface builders on top of it, and
    [mesh_from_polygons], which tiles an ordered stack of polygons and feeds
    the result to the meshing model.

    Conventions of the embedding.
    - Coordinates are rationals ([Q]); the source uses binary floating point,
      whose rounding is not modelled.
    - The pygmsh geometry (the [model] argument) is a recorder: every
      [add_*] call is logged and answered with the next tag of its entity
      kind, starting at 1, as gmsh allocates them.
    - A Python exception is an [outcome]; the tracker is a mutable object, so
      a raising call still leaves behind the mutations made before the raise:
      a computation maps a tracker to an outcome and the tracker afterwards. *)

From Stdlib Require Import String ZArith QArith Bool Arith Lia Lqa DecimalString List.
From Stdlib Require DecimalNat.
Import ListNotations.

Set Implicit Arguments.

(* ------------------------------------------------------------------------- *)
(** ** Python values and exceptions *)

Module Py.

Inductive exception : Type :=
| AttributeError
| IndexError
| KeyError
| ValueError.

Inductive outcome (A : Type) : Type :=
| Return (a : A)
| Raise (e : exception).
Arguments Return {A} a.
Arguments Raise {A} e.

(** The orientation flag of a segment lookup is [True], [False] or the
    integer [1] (mesh.py:43-46). *)
Inductive value : Type :=
| PyBool (b : bool)
| PyInt (z : Z).

(** Truth value, as tested by [if orientation:]. *)
Definition truthy (v : value) : bool :=
  match v with
  | PyBool b => b
  | PyInt z => negb (Z.eqb z 0)
  end.



End Py.

Import Py.

(* ------------------------------------------------------------------------- *)
(** ** The shapely geometries the code handles *)

Module Shapely.

Record Point : Type := mkPoint { xcoord : Q; ycoord : Q }.

Definition dist2 (a b : Point) : Q :=
  (xcoord a - xcoord b) * (xcoord a - xcoord b)
  + (ycoord a - ycoord b) * (ycoord a - ycoord b).

(** [a.equals_exact(b, tolerance)] on points: the distance between the two
    coordinates is at most [tolerance] (compared here on squares). *)
Definition Point_equals_exact (a b : Point) (tolerance : Q) : bool :=
  Qle_bool 0 tolerance && Qle_bool (dist2 a b) (tolerance * tolerance).

(** Coordinate equality, as used to decide whether a line is closed. *)
Definition Point_same (a b : Point) : bool :=
  Qeq_bool (xcoord a) (xcoord b) && Qeq_bool (ycoord a) (ycoord b).

(** A line string is its coordinate sequence. *)
Definition LineString : Type := list Point.

Fixpoint coords_equal_exact (l1 l2 : list Point) (tolerance : Q) : bool :=
  match l1, l2 with
  | [], [] => true
  | a :: l1', b :: l2' =>
      Point_equals_exact a b tolerance && coords_equal_exact l1' l2' tolerance
  | _, _ => false
  end.

(** [l1.equals_exact(l2, tolerance)] on line strings is structural: the same
    number of coordinates, equal within tolerance position by position.
    It therefore depends on the direction of the line. *)
Definition LineString_equals_exact (l1 l2 : LineString) (tolerance : Q) : bool :=
  coords_equal_exact l1 l2 tolerance.

Definition is_closed (l : LineString) : bool :=
  match l with
  | [] => false
  | a :: _ => Point_same a (last l a)
  end.

(** [l.boundary.geoms]: the two end points of an open line, nothing for an
    empty or a closed one. *)
Definition boundary (l : LineString) : list Point :=
  match l with
  | [] => []
  | a :: _ => if is_closed l then [] else [a; last l a]
  end.

(** A polygon is an exterior ring and hole rings, each the ring's closed
    coordinate sequence.  The empty polygon has no coordinate at all. *)
Record Polygon : Type := mkPolygon {
  exterior : list Point;
  interiors : list (list Point)
}.


(** What [difference] can hand back: a polygon, or a multi-part geometry,
    which has [geoms] but neither [exterior] nor [interiors]. *)
Inductive Geometry : Type :=
| GPolygon (p : Polygon)
| GMultiPolygon (geoms : list Polygon).

End Shapely.

Import Shapely.

(* ------------------------------------------------------------------------- *)
(** ** The pygmsh geometry, as a recorder of the calls made on it *)

Module Gmsh.

Inductive entity : Type := Surface | Curve.

Record model : Type := mkModel {
  characteristic_length_min : Q;
  characteristic_length_max : Q;
  points : list (Q * Q * option Q);
  lines : list (Z * Z);
  curve_loops : list (list Z);
  plane_surfaces : list (Z * list Z);
  physicals : list (entity * Z * string);
  duplicates_removed : bool;
  mesh_generated : option nat
}.

Definition next_tag {A : Type} (l : list A) : Z := Z.of_nat (S (length l)).

Definition Geometry (lmin lmax : Q) : model :=
  mkModel lmin lmax [] [] [] [] [] false None.

Definition add_point (px py : Q) (mesh_size : option Q) (m : model) : Z * model :=
  (next_tag (points m),
   mkModel (characteristic_length_min m) (characteristic_length_max m)
     (points m ++ [(px, py, mesh_size)]) (lines m) (curve_loops m)
     (plane_surfaces m) (physicals m) (duplicates_removed m) (mesh_generated m)).

Definition add_line (p0 p1 : Z) (m : model) : Z * model :=
  (next_tag (lines m),
   mkModel (characteristic_length_min m) (characteristic_length_max m)
     (points m) (lines m ++ [(p0, p1)]) (curve_loops m)
     (plane_surfaces m) (physicals m) (duplicates_removed m) (mesh_generated m)).

Definition add_curve_loop (curves : list Z) (m : model) : Z * model :=
  (next_tag (curve_loops m),
   mkModel (characteristic_length_min m) (characteristic_length_max m)
     (points m) (lines m) (curve_loops m ++ [curves])
     (plane_surfaces m) (physicals m) (duplicates_removed m) (mesh_generated m)).

Definition add_plane_surface (curve_loop : Z) (holes : list Z) (m : model) : Z * model :=
  (next_tag (plane_surfaces m),
   mkModel (characteristic_length_min m) (characteristic_length_max m)
     (points m) (lines m) (curve_loops m)
     (plane_surfaces m ++ [(curve_loop, holes)]) (physicals m)
     (duplicates_removed m) (mesh_generated m)).

Definition add_physical (kind : entity) (tag : Z) (label : string) (m : model) : model :=
  mkModel (characteristic_length_min m) (characteristic_length_max m)
    (points m) (lines m) (curve_loops m) (plane_surfaces m)
    (physicals m ++ [(kind, tag, label)]) (duplicates_removed m) (mesh_generated m).

Definition removeAllDuplicates (m : model) : model :=
  mkModel (characteristic_length_min m) (characteristic_length_max m)
    (points m) (lines m) (curve_loops m) (plane_surfaces m)
    (physicals m) true (mesh_generated m).

Definition generate_mesh (dim : nat) (m : model) : model :=
  mkModel (characteristic_length_min m) (characteristic_length_max m)
    (points m) (lines m) (curve_loops m) (plane_surfaces m)
    (physicals m) (duplicates_removed m) (Some dim).


End Gmsh.

(* ------------------------------------------------------------------------- *)
(** ** MeshTracker *)

Local Open Scope nat_scope.

Record MeshTracker : Type := mkTracker {
  shapely_points : list Point;
  gmsh_points : list Z;
  shapely_xy_lines : list LineString;
  gmsh_xy_lines : list Z;
  gmsh_xy_surfaces : list Z;
  model : Gmsh.model;
  atol : Q
}.

(** [MeshTracker(model, atol)], mesh.py:14-25. *)
Definition MeshTracker_init (m : Gmsh.model) (tol : Q) : MeshTracker :=
  mkTracker [] [] [] [] [] m tol.

Definition default_atol : Q := (1 # 1000)%Q.

Definition set_model (m : Gmsh.model) (self : MeshTracker) : MeshTracker :=
  mkTracker (shapely_points self) (gmsh_points self) (shapely_xy_lines self)
    (gmsh_xy_lines self) (gmsh_xy_surfaces self) m (atol self).

Definition append_point (p : Point) (gmsh_point : Z) (self : MeshTracker) : MeshTracker :=
  mkTracker (shapely_points self ++ [p]) (gmsh_points self ++ [gmsh_point])
    (shapely_xy_lines self) (gmsh_xy_lines self) (gmsh_xy_surfaces self)
    (model self) (atol self).

Definition append_line (l : LineString) (gmsh_line : Z) (self : MeshTracker) : MeshTracker :=
  mkTracker (shapely_points self) (gmsh_points self)
    (shapely_xy_lines self ++ [l]) (gmsh_xy_lines self ++ [gmsh_line])
    (gmsh_xy_surfaces self) (model self) (atol self).

(** Computations on the tracker: outcome and tracker afterwards. *)
Definition M (A : Type) : Type := MeshTracker -> outcome A * MeshTracker.

Definition ret {A : Type} (a : A) : M A := fun self => (Return a, self).

Definition raise {A : Type} (e : exception) : M A := fun self => (Raise e, self).

Definition bind {A B : Type} (c : M A) (k : A -> M B) : M B :=
  fun self =>
    match c self with
    | (Return a, self') => k a self'
    | (Raise e, self') => (Raise e, self')
    end.

Declare Scope tracker_scope.
Delimit Scope tracker_scope with tracker.
Notation "x <- c ;; k" := (bind c (fun x => k))
  (at level 61, c at next level, right associativity) : tracker_scope.
Notation "' pat <- c ;; k" := (bind c (fun x => match x with pat => k end))
  (at level 61, pat pattern, c at next level, right associativity) : tracker_scope.
Local Open Scope tracker_scope.

(** A call on [self.model] that returns a handle. *)
Definition on_model {A : Type} (f : Gmsh.model -> A * Gmsh.model) : M A :=
  fun self => let '(a, m) := f (model self) in (Return a, set_model m self).

(** A call on [self.model] made for its effect only. *)
Definition update_model (f : Gmsh.model -> Gmsh.model) : M unit :=
  fun self => (Return tt, set_model (f (model self)) self).

(** *** Retrieve existing geometry *)

Fixpoint scan_points (tol : Q) (xy_point : Point) (pts : list Point) (index : nat)
  : option nat :=
  match pts with
  | [] => None
  | shapely_point :: rest =>
      if Point_equals_exact xy_point shapely_point tol then Some index
      else scan_points tol xy_point rest (S index)
  end.

(** mesh.py:30-34 *)
Definition get_point_index (self : MeshTracker) (xy_point : Point) : option nat :=
  scan_points (atol self) xy_point (shapely_points self) 0.

Fixpoint scan_lines (tol : Q) (xy_line : LineString) (ls : list LineString) (index : nat)
  : outcome (option nat * value) :=
  match ls with
  | [] => Return (None, PyInt 1)
  | shapely_line :: rest =>
      if LineString_equals_exact xy_line shapely_line tol then
        match boundary xy_line, boundary shapely_line with
        | [first_xy_line; _], [first_xy; _] =>
            if Point_equals_exact first_xy_line first_xy tol
            then Return (Some index, PyBool true)
            else Return (Some index, PyBool false)
        | _, _ => Raise ValueError
        end
      else scan_lines tol xy_line rest (S index)
  end.

(** mesh.py:36-46 *)
Definition get_xy_line_index_and_orientation (self : MeshTracker)
    (xy_point1 xy_point2 : Point) : outcome (option nat * value) :=
  let xy_line : LineString := [xy_point1; xy_point2] in
  scan_lines (atol self) xy_line (shapely_xy_lines self) 0.

(** *** Adding geometry *)

(** mesh.py:65-83 *)
Definition add_get_point (shapely_xy_point : Point) (resolution : option Q) : M Z :=
  fun self =>
    match get_point_index self shapely_xy_point with
    | Some index =>
        match nth_error (gmsh_points self) index with
        | Some gmsh_point => (Return gmsh_point, self)
        | None => (Raise IndexError, self)
        end
    | None =>
        let '(gmsh_point, m) :=
          Gmsh.add_point (xcoord shapely_xy_point) (ycoord shapely_xy_point)
            resolution (model self) in
        (Return gmsh_point, append_point shapely_xy_point gmsh_point (set_model m self))
    end.

(** mesh.py:86-101 *)
Definition add_get_xy_line (shapely_xy_point1 shapely_xy_point2 : Point)
  : M (Z * value) :=
  fun self =>
    match get_xy_line_index_and_orientation self shapely_xy_point1 shapely_xy_point2 with
    | Raise e => (Raise e, self)
    | Return (Some index, orientation) =>
        match nth_error (gmsh_xy_lines self) index with
        | Some gmsh_line => (Return (gmsh_line, orientation), self)
        | None => (Raise IndexError, self)
        end
    | Return (None, orientation) =>
        (p0 <- add_get_point shapely_xy_point1 None ;;
         p1 <- add_get_point shapely_xy_point2 None ;;
         gmsh_line <- on_model (Gmsh.add_line p0 p1) ;;
         fun self' =>
           (Return (gmsh_line, orientation),
            append_line [shapely_xy_point1; shapely_xy_point2] gmsh_line self')) self
    end.

(** *** Channel loops *)

(** [[(vertices[i], vertices[i + 1]) for i in range(0, len(vertices)-1)]] *)
Fixpoint consecutive_pairs (vertices : list Point) : list (Point * Point) :=
  match vertices with
  | vertex1 :: (vertex2 :: _) as rest => (vertex1, vertex2) :: consecutive_pairs rest
  | _ => []
  end.

Fixpoint collect_edges (pairs : list (Point * Point)) (edges : list Z) : M (list Z) :=
  match pairs with
  | [] => ret edges
  | (vertex1, vertex2) :: rest =>
      ' (gmsh_line, orientation) <- add_get_xy_line vertex1 vertex2 ;;
      collect_edges rest
        (edges ++ [if truthy orientation then gmsh_line else (- gmsh_line)%Z])
  end.

(** mesh.py:51-60 *)
Definition xy_channel_loop_from_vertices (vertices : list Point) : M Z :=
  edges <- collect_edges (consecutive_pairs vertices) [] ;;
  on_model (Gmsh.add_curve_loop edges).

(** *** Surfaces *)

(** The inner loops of [add_xy_surface]: every coordinate of a ring is
    registered as a point and collected as a vertex. *)
Fixpoint register_vertices (coords : list Point) (resolution : option Q)
    (vertices : list Point) : M (list Point) :=
  match coords with
  | [] => ret vertices
  | vertex :: rest =>
      _ <- add_get_point vertex resolution ;;
      register_vertices rest resolution (vertices ++ [vertex])
  end.

Fixpoint parse_holes (holes : list (list Point)) (resolution : option Q)
    (hole_loops : list Z) : M (list Z) :=
  match holes with
  | [] => ret hole_loops
  | polygon_hole :: rest =>
      hole_vertices <- register_vertices polygon_hole resolution [] ;;
      hole_loop <- xy_channel_loop_from_vertices hole_vertices ;;
      parse_holes rest resolution (hole_loops ++ [hole_loop])
  end.

(** mesh.py:103-131.  Reading [interiors] off a multi-part geometry raises
    [AttributeError]. *)
Definition add_xy_surface (shapely_xy_polygon : Geometry) (resolution : option Q) : M Z :=
  match shapely_xy_polygon with
  | GMultiPolygon _ => raise AttributeError
  | GPolygon polygon =>
      hole_loops <- parse_holes (interiors polygon) resolution [] ;;
      exterior_vertices <- register_vertices (exterior polygon) resolution [] ;;
      channel_loop <- xy_channel_loop_from_vertices exterior_vertices ;;
      on_model (Gmsh.add_plane_surface channel_loop hole_loops)
  end.

(* ------------------------------------------------------------------------- *)
(** ** Dictionaries *)

(** An [OrderedDict] (and a [dict]) keyed by strings: the items in insertion
    order, keys pairwise distinct. *)
Definition OrderedDict (V : Type) : Type := list (string * V).

Fixpoint getitem {V : Type} (key : string) (d : OrderedDict V) : option V :=
  match d with
  | [] => None
  | (k, v) :: rest => if String.eqb k key then Some v else getitem key rest
  end.

Definition contains {V : Type} (key : string) (d : OrderedDict V) : bool :=
  existsb (fun item => String.eqb (fst item) key) d.

(** [d[key] = v]: an existing key keeps its position, a new one goes last. *)
Fixpoint setitem {V : Type} (key : string) (v : V) (d : OrderedDict V) : OrderedDict V :=
  match d with
  | [] => [(key, v)]
  | (k, w) :: rest =>
      if String.eqb k key then (k, v) :: rest else (k, w) :: setitem key v rest
  end.

Definition keys {V : Type} (d : OrderedDict V) : list string := map fst d.

Definition values {V : Type} (d : OrderedDict V) : list V := map snd d.

Definition enumerate {A : Type} (l : list A) : list (nat * A) :=
  combine (seq 0 (length l)) l.

(* ------------------------------------------------------------------------- *)
(** ** Layer tiling (mesh.py:151-158) *)

Section Tiler.

Variable G : Type.
Variable difference : G -> G -> G.

Definition subtract_higher (lower_polygon : G) (higher : list (nat * (string * G))) : G :=
  fold_left
    (fun diff_polygon '(higher_index, (higher_name, higher_polygon)) =>
       difference diff_polygon higher_polygon)
    higher lower_polygon.

(** The body of the outer loop, for one enumerated item. *)
Definition tile_step (polygon_dict polygons_tiled_dict : OrderedDict G)
    (item : nat * (string * G)) : OrderedDict G :=
  let '(lower_index, (lower_name, lower_polygon)) := item in
  let diff_polygon :=
    subtract_higher lower_polygon
      (rev (firstn lower_index (enumerate polygon_dict))) in
  setitem lower_name diff_polygon polygons_tiled_dict.

Definition polygons_tiled (polygon_dict : OrderedDict G) : OrderedDict G :=
  fold_left (tile_step polygon_dict) (rev (enumerate polygon_dict)) [].

(** The layer computed for the polygon at an index, and the entry it is
    stored under. *)
Definition layer_of (polygon_dict : OrderedDict G) (index : nat) (polygon : G) : G :=
  subtract_higher polygon (rev (firstn index (enumerate polygon_dict))).

Definition item_name (item : nat * (string * G)) : string := fst (snd item).

Definition tiled_item (polygon_dict : OrderedDict G) (item : nat * (string * G))
  : string * G :=
  (item_name item, layer_of polygon_dict (fst item) (snd (snd item))).

End Tiler.

(* ------------------------------------------------------------------------- *)
(** ** mesh_from_polygons (mesh.py:134-182) *)

(** mesh.py:163-166.  [resolutions.keys()] on [None] raises. *)
Definition lookup_resolution (resolutions : option (OrderedDict Q))
    (polygon_name : string) : M (option Q) :=
  match resolutions with
  | None => raise AttributeError
  | Some table =>
      if contains polygon_name table then
        match getitem polygon_name table with
        | Some resolution => ret (Some resolution)
        | None => raise KeyError
        end
      else ret None
  end.

(** mesh.py:162-168, over the items in the order the loop visits them. *)
Fixpoint add_surfaces (items : list (string * Geometry))
    (resolutions : option (OrderedDict Q)) : M unit :=
  match items with
  | [] => ret tt
  | (polygon_name, polygon) :: rest =>
      resolution <- lookup_resolution resolutions polygon_name ;;
      plane_surface <- add_xy_surface polygon resolution ;;
      _ <- update_model (Gmsh.add_physical Gmsh.Surface plane_surface polygon_name) ;;
      add_surfaces rest resolutions
  end.

Definition line_label (i : nat) : string :=
  String.append "line_" (NilEmpty.string_of_uint (Nat.to_uint i)).

(** mesh.py:174-177 *)
Fixpoint label_lines (gmsh_lines : list Z) (i : nat) : M unit :=
  match gmsh_lines with
  | [] => ret tt
  | line :: rest =>
      _ <- update_model (Gmsh.add_physical Gmsh.Curve line (line_label i)) ;;
      label_lines rest (S i)
  end.

Section Build.

(** [diff_polygon.difference(higher_polygon)], computed by shapely. *)
Variable difference : Geometry -> Geometry -> Geometry.

Definition build (polygon_dict : OrderedDict Geometry)
    (resolutions : option (OrderedDict Q)) : M unit :=
  let polygons_tiled_dict := polygons_tiled difference polygon_dict in
  _ <- add_surfaces (rev polygons_tiled_dict) resolutions ;;
  _ <- update_model Gmsh.removeAllDuplicates ;;
  _ <- (fun meshtracker => label_lines (gmsh_xy_lines meshtracker) 0 meshtracker) ;;
  update_model (Gmsh.generate_mesh 2).

(** The model and the tracker's model are one object; it lives in the
    tracker here and is read back at the end. *)
Definition mesh_from_polygons (polygon_dict : OrderedDict Geometry)
    (resolutions : option (OrderedDict Q))
    (default_resolution_min default_resolution_max : Q)
  : outcome Gmsh.model * MeshTracker :=
  let geometry := Gmsh.Geometry default_resolution_min default_resolution_max in
  let meshtracker := MeshTracker_init geometry default_atol in
  match build polygon_dict resolutions meshtracker with
  | (Return _, meshtracker') => (Return (model meshtracker'), meshtracker')
  | (Raise e, meshtracker') => (Raise e, meshtracker')
  end.

End Build.

(* ------------------------------------------------------------------------- *)
(** ** Predicates on trackers *)

(** [respects R c]: whatever the outcome, the tracker after [c] is related by
    [R] to the tracker before. *)
Definition respects (R : MeshTracker -> MeshTracker -> Prop) {A : Type} (c : M A) : Prop :=
  forall self, R self (snd (c self)).

(** The parallel lists have the same length. *)
Definition consistent (t : MeshTracker) : Prop :=
  length (shapely_points t) = length (gmsh_points t)
  /\ length (shapely_xy_lines t) = length (gmsh_xy_lines t).

(** [t'] has every entry of [t], at the same index, followed by as many new
    geometric entries as new handles. *)
Definition grows (t t' : MeshTracker) : Prop :=
  (exists ps hs,
      shapely_points t' = shapely_points t ++ ps
      /\ gmsh_points t' = gmsh_points t ++ hs
      /\ length ps = length hs)
  /\ (exists ls ks,
         shapely_xy_lines t' = shapely_xy_lines t ++ ls
         /\ gmsh_xy_lines t' = gmsh_xy_lines t ++ ks
         /\ length ls = length ks)
  /\ atol t' = atol t.

(** Loops, surfaces and labels of the model are untouched. *)
Definition same_surfaces (t t' : MeshTracker) : Prop :=
  Gmsh.curve_loops (model t') = Gmsh.curve_loops (model t)
  /\ Gmsh.plane_surfaces (model t') = Gmsh.plane_surfaces (model t)
  /\ Gmsh.physicals (model t') = Gmsh.physicals (model t).

(** A line whose boundary unpacks into two end points. *)
Definition is_open (l : LineString) : bool :=
  match boundary l with
  | [_; _] => true
  | _ => false
  end.

Definition open_lines (t : MeshTracker) : Prop :=
  Forall (fun l => is_open l = true) (shapely_xy_lines t).

(** Every registered line handle is a tag the model has handed out. *)
Definition tags_issued (t : MeshTracker) : Prop :=
  Forall (fun h => (1 <= h <= Z.of_nat (length (Gmsh.lines (model t))))%Z)
    (gmsh_xy_lines t).

(* ------------------------------------------------------------------------- *)
(** ** Regions as point sets *)

(** What a geometry covers decides the properties of the tiling.  [PointSet] is the
    plain reading: a region is the characteristic function of its points and
    [difference] is set difference. *)
Module PointSet.

Definition region : Type := Point -> bool.

Definition covers (r : region) (p : Point) : bool := r p.

Definition difference (a b : region) : region := fun p => a p && negb (b p).

(** The axis-parallel rectangle with corners [(x0, y0)] and [(x1, y1)]. *)
Definition box (x0 y0 x1 y1 : Q) : region :=
  fun p =>
    Qle_bool x0 (xcoord p) && Qle_bool (xcoord p) x1
    && Qle_bool y0 (ycoord p) && Qle_bool (ycoord p) y1.

End PointSet.

Section TilingPolicies.

Variables G P : Type.
Variable covers : G -> P -> bool.

Definition covered_by_any (gs : list G) (p : P) : bool :=
  existsb (fun g => covers g p) gs.

(** The layer of every entry is its polygon minus all later-indexed
    polygons: the policy as the specification words it. *)
Definition last_declared_wins (polygon_dict tiled : OrderedDict G) : Prop :=
  forall i name g,
    nth_error polygon_dict i = Some (name, g) ->
    exists layer,
      getitem name tiled = Some layer
      /\ forall p, covers layer p
                   = covers g p && negb (covered_by_any (skipn (S i) (values polygon_dict)) p).

(** The layer of every entry is its polygon minus all earlier-indexed
    polygons. *)
Definition first_declared_wins (polygon_dict tiled : OrderedDict G) : Prop :=
  forall i name g,
    nth_error polygon_dict i = Some (name, g) ->
    exists layer,
      getitem name tiled = Some layer
      /\ forall p, covers layer p
                   = covers g p && negb (covered_by_any (firstn i (values polygon_dict)) p).

End TilingPolicies.

(* ------------------------------------------------------------------------- *)
(** ** Sample data *)

Definition corner00 : Point := mkPoint 0 0.
Definition corner10 : Point := mkPoint 1 0.
Definition corner11 : Point := mkPoint 1 1.
Definition corner01 : Point := mkPoint 0 1.

Definition unit_square : Geometry :=
  GPolygon (mkPolygon [corner00; corner10; corner11; corner01; corner00] []).

Definition fresh_tracker : MeshTracker :=
  MeshTracker_init (Gmsh.Geometry (1 # 100)%Q (1 # 10)%Q) default_atol.

(** The tracker after the origin has been registered, and a point half a
    tolerance away from the origin. *)
Definition tracker_with_origin : MeshTracker :=
  snd (add_get_point corner00 (Some (1 # 100)%Q) fresh_tracker).

Definition near_origin : Point := mkPoint (1 # 2000) 0.

(** The square to the right of the unit square; the two share the edge
    between (1,0) and (1,1). *)
Definition right_square : Geometry :=
  GPolygon (mkPolygon [corner10; mkPoint 2 0; mkPoint 2 1; corner11; corner10] []).

(** Two unit squares apart from each other, as one multi-part geometry. *)
Definition two_islands : Geometry :=
  GMultiPolygon
    [mkPolygon [corner00; corner10; corner11; corner01; corner00] [];
     mkPolygon [mkPoint 2 0; mkPoint 3 0; mkPoint 3 1; mkPoint 2 1; mkPoint 2 0] []].

(** The unit square as background and a smaller square inside it as
    foreground, in that order, as point sets. *)
Definition background : PointSet.region := PointSet.box 0 0 1 1.

Definition foreground : PointSet.region :=
  PointSet.box (1 # 4) (1 # 4) (3 # 4) (3 # 4).

Definition stacked : OrderedDict PointSet.region :=
  [("R0"%string, background); ("R1"%string, foreground)].

Definition centre : Point := mkPoint (1 # 2) (1 # 2).

(** [difference] on operands whose interiors do not meet gives the first
    operand back; it stands in for shapely where nothing overlaps. *)
Definition difference_of_disjoint (lower higher : Geometry) : Geometry := lower.

(* ------------------------------------------------------------------------- *)
(** ** Further predicates on trackers *)

(** An invariant seen as a relation between the tracker before and after. *)
Definition kept (I : MeshTracker -> Prop) (t t' : MeshTracker) : Prop := I t -> I t'.

(** The tags 1, ..., n in order. *)
Definition tags_upto (n : nat) : list Z := map (fun i => Z.of_nat (S i)) (seq 0 n).

(** The registry mirrors the model: the i-th registered point (segment) has
    the i-th point (line) tag as its handle, the model holds as many points
    and lines as the registry, and the model's points have the registered
    coordinates. *)
Definition mirrors (t : MeshTracker) : Prop :=
  gmsh_points t = tags_upto (length (shapely_points t))
  /\ map (fun pt => fst pt) (Gmsh.points (model t))
     = map (fun p => (xcoord p, ycoord p)) (shapely_points t)
  /\ gmsh_xy_lines t = tags_upto (length (shapely_xy_lines t))
  /\ length (Gmsh.lines (model t)) = length (shapely_xy_lines t).

(** Every registered segment has two end points, both found in the point
    registry, and its line in the model joins the handles of the two
    registered points that answer for them. *)
Definition joined (t : MeshTracker) : Prop :=
  forall i l,
    nth_error (shapely_xy_lines t) i = Some l ->
    exists p1 p2 j1 j2,
      l = [p1; p2]
      /\ get_point_index t p1 = Some j1
      /\ get_point_index t p2 = Some j2
      /\ nth_error (Gmsh.lines (model t)) i = Some (Z.of_nat (S j1), Z.of_nat (S j2)).

Definition sound (t : MeshTracker) : Prop :=
  mirrors t /\ joined t /\ (0 <= atol t)%Q.

(** A point that the point registry answers for. *)
Definition known (t : MeshTracker) (p : Point) : Prop :=
  exists i, get_point_index t p = Some i.

(** Neither the point registry nor the points of the model have changed. *)
Definition same_points (t t' : MeshTracker) : Prop :=
  shapely_points t' = shapely_points t
  /\ Gmsh.points (model t') = Gmsh.points (model t)
  /\ atol t' = atol t.

(** The point registry has only grown, and every point the model has
    received carries the given mesh size. *)
Definition adds_points_with (resolution : option Q) (t t' : MeshTracker) : Prop :=
  atol t' = atol t
  /\ (exists ps, shapely_points t' = shapely_points t ++ ps)
  /\ exists added,
      Gmsh.points (model t') = Gmsh.points (model t) ++ added
      /\ Forall (fun pt => snd pt = resolution) added.

(** Surfaces and labels of the model are untouched. *)
Definition same_labels (t t' : MeshTracker) : Prop :=
  Gmsh.plane_surfaces (model t') = Gmsh.plane_surfaces (model t)
  /\ Gmsh.physicals (model t') = Gmsh.physicals (model t).


(** The labels a build attaches: surface [first + i + 1] for the i-th name,
    and [line_(first + i)] for the i-th line handle. *)
Definition surface_labels (first : nat) (names : list string)
  : list (Gmsh.entity * Z * string) :=
  map (fun item => (Gmsh.Surface, Z.of_nat (S (fst item)), snd item))
    (combine (seq first (length names)) names).

Definition curve_labels (first : nat) (gmsh_lines : list Z)
  : list (Gmsh.entity * Z * string) :=
  map (fun item => (Gmsh.Curve, snd item, line_label (fst item)))
    (combine (seq first (length gmsh_lines)) gmsh_lines).

(** The tracker after the segment from (0,0) to (1,0) has been registered. *)
Definition tracker_with_edge : MeshTracker :=
  snd (add_get_xy_line corner00 corner10 fresh_tracker).



(* ------------------------------------------------------------------------- *)
(** * Properties *)

(** ** Relations kept by every computation on the tracker *)

Section Respects.

Variable R : MeshTracker -> MeshTracker -> Prop.
Hypothesis R_refl : forall t, R t t.
Hypothesis R_trans : forall t1 t2 t3, R t1 t2 -> R t2 t3 -> R t1 t3.

Lemma respects_ret (A : Type) (a : A) : respects R (ret a).
Proof. intros t. apply R_refl. Qed.

Lemma respects_raise (A : Type) (e : exception) : respects R (@raise A e).
Proof. intros t. apply R_refl. Qed.

Lemma respects_bind (A B : Type) (c : M A) (k : A -> M B) :
  respects R c -> (forall a, respects R (k a)) -> respects R (bind c k).
Proof.
  intros Hc Hk t. unfold bind.
  specialize (Hc t). destruct (c t) as [[a | e] t1]; simpl in *.
  - eapply R_trans; [exact Hc | apply Hk].
  - exact Hc.
Qed.

Lemma respects_on_model (A : Type) (f : Gmsh.model -> A * Gmsh.model) :
  (forall t, R t (set_model (snd (f (model t))) t)) -> respects R (on_model f).
Proof.
  intros H t. unfold on_model. specialize (H t).
  destruct (f (model t)) as [a m]. exact H.
Qed.

(** The two steps that touch the registry. *)
Hypothesis R_point :
  forall t p resolution,
    let '(h, m) := Gmsh.add_point (xcoord p) (ycoord p) resolution (model t) in
    R t (append_point p h (set_model m t)).
Hypothesis R_line :
  forall t l p0 p1,
    let '(h, m) := Gmsh.add_line p0 p1 (model t) in
    R t (append_line l h (set_model m t)).

Lemma respects_add_get_point p resolution : respects R (add_get_point p resolution).
Proof.
  intros t. unfold add_get_point.
  destruct (get_point_index t p) as [i |].
  - destruct (nth_error (gmsh_points t) i); simpl; apply R_refl.
  - specialize (R_point t p resolution).
    destruct (Gmsh.add_point (xcoord p) (ycoord p) resolution (model t)) as [h m].
    exact R_point.
Qed.

Lemma respects_add_get_xy_line p1 p2 : respects R (add_get_xy_line p1 p2).
Proof.
  intros t. unfold add_get_xy_line.
  destruct (get_xy_line_index_and_orientation t p1 p2) as [[[i |] o] | e].
  - destruct (nth_error (gmsh_xy_lines t) i); simpl; apply R_refl.
  - revert t. change (respects R
      (p0 <- add_get_point p1 None ;;
       p3 <- add_get_point p2 None ;;
       gmsh_line <- on_model (Gmsh.add_line p0 p3) ;;
       (fun self' => (Return (gmsh_line, o), append_line [p1; p2] gmsh_line self')))).
    apply respects_bind; [apply respects_add_get_point | intros h1].
    apply respects_bind; [apply respects_add_get_point | intros h2].
    intros t. exact (R_line t [p1; p2] h1 h2).
  - simpl. apply R_refl.
Qed.

Lemma respects_collect_edges pairs edges : respects R (collect_edges pairs edges).
Proof.
  revert edges. induction pairs as [| [v1 v2] rest IH]; intros edges; simpl.
  - apply respects_ret.
  - apply respects_bind; [apply respects_add_get_xy_line | intros [l o]]. apply IH.
Qed.

Lemma respects_register_vertices coords resolution vertices :
  respects R (register_vertices coords resolution vertices).
Proof.
  revert vertices. induction coords as [| v rest IH]; intros vertices; simpl.
  - apply respects_ret.
  - apply respects_bind; [apply respects_add_get_point | intros _]. apply IH.
Qed.

(** The steps that add loops and surfaces to the model. *)
Hypothesis R_curve_loop :
  forall t edges, R t (set_model (snd (Gmsh.add_curve_loop edges (model t))) t).
Hypothesis R_plane_surface :
  forall t l holes, R t (set_model (snd (Gmsh.add_plane_surface l holes (model t))) t).

Lemma respects_xy_channel_loop_from_vertices vertices :
  respects R (xy_channel_loop_from_vertices vertices).
Proof.
  unfold xy_channel_loop_from_vertices.
  apply respects_bind; [apply respects_collect_edges | intros edges].
  apply respects_on_model. intros t. apply R_curve_loop.
Qed.

Lemma respects_parse_holes holes resolution hole_loops :
  respects R (parse_holes holes resolution hole_loops).
Proof.
  revert hole_loops. induction holes as [| h rest IH]; intros hole_loops; simpl.
  - apply respects_ret.
  - apply respects_bind; [apply respects_register_vertices | intros vs].
    apply respects_bind; [apply respects_xy_channel_loop_from_vertices | intros l].
    apply IH.
Qed.

Lemma respects_add_xy_surface g resolution : respects R (add_xy_surface g resolution).
Proof.
  destruct g as [polygon | parts]; simpl.
  - apply respects_bind; [apply respects_parse_holes | intros hl].
    apply respects_bind; [apply respects_register_vertices | intros vs].
    apply respects_bind; [apply respects_xy_channel_loop_from_vertices | intros l].
    apply respects_on_model. intros t. apply R_plane_surface.
  - apply respects_raise.
Qed.

End Respects.

(** ** The registry only grows *)

Lemma grows_refl t : grows t t.
Proof.
  repeat split.
  - exists [], []. now rewrite !app_nil_r.
  - exists [], []. now rewrite !app_nil_r.
Qed.

Lemma grows_trans t1 t2 t3 : grows t1 t2 -> grows t2 t3 -> grows t1 t3.
Proof.
  intros [(ps & hs & Hp & Hh & Hl) [(ls & ks & Hls & Hks & Hlk) Ha]]
         [(ps' & hs' & Hp' & Hh' & Hl') [(ls' & ks' & Hls' & Hks' & Hlk') Ha']].
  repeat split.
  - exists (ps ++ ps'), (hs ++ hs').
    rewrite Hp', Hp, Hh', Hh, <- !app_assoc, !length_app. auto.
  - exists (ls ++ ls'), (ks ++ ks').
    rewrite Hls', Hls, Hks', Hks, <- !app_assoc, !length_app. auto.
  - congruence.
Qed.

Lemma grows_point t p h m : grows t (append_point p h (set_model m t)).
Proof.
  repeat split; simpl.
  - exists [p], [h]. auto.
  - exists [], []. now rewrite !app_nil_r.
Qed.

Lemma grows_line t l h m : grows t (append_line l h (set_model m t)).
Proof.
  repeat split; simpl.
  - exists [], []. now rewrite !app_nil_r.
  - exists [l], [h]. auto.
Qed.

Lemma grows_model t m : grows t (set_model m t).
Proof.
  repeat split; simpl.
  - exists [], []. now rewrite !app_nil_r.
  - exists [], []. now rewrite !app_nil_r.
Qed.

Lemma grows_consistent t t' : grows t t' -> consistent t -> consistent t'.
Proof.
  intros [(ps & hs & Hp & Hh & Hl) [(ls & ks & Hls & Hks & Hlk) _]] [H1 H2].
  split.
  - rewrite Hp, Hh, !length_app. lia.
  - rewrite Hls, Hks, !length_app. lia.
Qed.

Lemma MeshTracker_init_consistent m tol : consistent (MeshTracker_init m tol).
Proof. split; reflexivity. Qed.

Ltac grows_steps :=
  first [ apply grows_refl | apply grows_trans
        | intros; apply grows_point | intros; apply grows_line
        | intros; apply grows_model ].

Lemma add_get_point_grows p resolution : respects grows (add_get_point p resolution).
Proof. apply respects_add_get_point; grows_steps. Qed.

Lemma add_get_xy_line_grows p1 p2 : respects grows (add_get_xy_line p1 p2).
Proof. apply respects_add_get_xy_line; grows_steps. Qed.

Lemma xy_channel_loop_from_vertices_grows vertices :
  respects grows (xy_channel_loop_from_vertices vertices).
Proof. apply respects_xy_channel_loop_from_vertices; grows_steps. Qed.

Lemma add_xy_surface_grows g resolution : respects grows (add_xy_surface g resolution).
Proof. apply respects_add_xy_surface; grows_steps. Qed.

(** C9. Every registry operation (adding or retrieving a point or a segment,
    building a loop, building a surface) only grows the registry: the lists
    of geometric points and lines and of their model handles keep all their
    entries at their indices, receive equally many new entries, and so stay
    of equal length. This holds whatever the outcome of the operation. *)
Theorem registry_only_grows (t : MeshTracker) :
  consistent t ->
  (forall p resolution,
      let t' := snd (add_get_point p resolution t) in grows t t' /\ consistent t')
  /\ (forall p1 p2,
         let t' := snd (add_get_xy_line p1 p2 t) in grows t t' /\ consistent t')
  /\ (forall vertices,
         let t' := snd (xy_channel_loop_from_vertices vertices t) in
         grows t t' /\ consistent t')
  /\ (forall g resolution,
         let t' := snd (add_xy_surface g resolution t) in grows t t' /\ consistent t').
Proof.
  intros Hc.
  assert (step : forall t', grows t t' -> grows t t' /\ consistent t').
  { intros t' Hg. split; [exact Hg | exact (grows_consistent Hg Hc)]. }
  split; [| split; [| split]]; intros; apply step.
  - apply add_get_point_grows.
  - apply add_get_xy_line_grows.
  - apply xy_channel_loop_from_vertices_grows.
  - apply add_xy_surface_grows.
Qed.

Lemma registry_only_grows_witness :
  let t' := snd (add_xy_surface unit_square None fresh_tracker) in
  grows fresh_tracker t' /\ consistent t'.
Proof.
  apply (registry_only_grows (t := fresh_tracker)).
  split; reflexivity.
Defined.

(** ** Looking a point up *)

Lemma scan_points_spec tol p pts k :
  match scan_points tol p pts k with
  | Some i =>
      exists j q,
        i = k + j /\ nth_error pts j = Some q
        /\ Point_equals_exact p q tol = true
        /\ forall j' q', j' < j -> nth_error pts j' = Some q' ->
                         Point_equals_exact p q' tol = false
  | None => forall q, In q pts -> Point_equals_exact p q tol = false
  end.
Proof.
  revert k. induction pts as [| a rest IH]; intros k; simpl.
  - intros q [].
  - destruct (Point_equals_exact p a tol) eqn:Ha.
    + exists 0, a. repeat split; auto. intros j' q' Hlt. lia.
    + specialize (IH (S k)). destruct (scan_points tol p rest (S k)) as [i |].
      * destruct IH as (j & q & Hi & Hn & Hq & Hmin).
        exists (S j), q. repeat split; auto; try lia.
        intros [| j'] q' Hlt Hn'; simpl in Hn'.
        -- congruence.
        -- apply (Hmin j'); auto. lia.
      * intros q [-> | Hin]; auto.
Qed.

Lemma scan_points_app tol p l1 l2 k :
  scan_points tol p (l1 ++ l2) k =
  match scan_points tol p l1 k with
  | Some i => Some i
  | None => scan_points tol p l2 (k + length l1)
  end.
Proof.
  revert k. induction l1 as [| a rest IH]; intros k; simpl.
  - f_equal. lia.
  - destruct (Point_equals_exact p a tol); auto.
    rewrite IH. destruct (scan_points tol p rest (S k)); auto.
Qed.

Lemma Point_equals_exact_refl p tol :
  (0 <= tol)%Q -> Point_equals_exact p p tol = true.
Proof.
  intros H. unfold Point_equals_exact, dist2.
  apply andb_true_intro. split; apply Qle_bool_iff; [exact H | nra].
Qed.

(** A hit of [get_point_index] on a consistent tracker: the least matching
    index, and the handle stored there. *)
Lemma get_point_index_hit t p :
  consistent t ->
  (exists q, In q (shapely_points t) /\ Point_equals_exact p q (atol t) = true) ->
  exists i q h,
    get_point_index t p = Some i
    /\ nth_error (shapely_points t) i = Some q
    /\ Point_equals_exact p q (atol t) = true
    /\ (forall j q', j < i -> nth_error (shapely_points t) j = Some q' ->
                     Point_equals_exact p q' (atol t) = false)
    /\ nth_error (gmsh_points t) i = Some h.
Proof.
  intros [Hlen _] (q0 & Hin & Hq0). unfold get_point_index.
  pose proof (scan_points_spec (atol t) p (shapely_points t) 0) as Hs.
  destruct (scan_points (atol t) p (shapely_points t) 0) as [i |].
  - destruct Hs as (j & q & Hi & Hn & Hq & Hmin). simpl in Hi. subst i.
    assert (Hlt : j < length (gmsh_points t)).
    { rewrite <- Hlen. apply nth_error_Some. congruence. }
    apply nth_error_Some in Hlt.
    destruct (nth_error (gmsh_points t) j) as [h |] eqn:Hh; [| congruence].
    exists j, q, h. repeat split; auto.
  - rewrite (Hs q0 Hin) in Hq0. discriminate.
Qed.


(** C5. A point within tolerance of an already registered point is answered
    with the handle of the earliest registered match, whatever resolution is
    passed, and the tracker (so its point count, and the model) is left as it
    was; adding the same coordinates twice gives the same handle both times
    and the second call changes nothing. *)
Theorem add_get_point_reuses (t : MeshTracker) (p : Point) :
  consistent t ->
  ((exists q, In q (shapely_points t) /\ Point_equals_exact p q (atol t) = true) ->
   exists i q h,
     nth_error (shapely_points t) i = Some q
     /\ Point_equals_exact p q (atol t) = true
     /\ (forall j q', j < i -> nth_error (shapely_points t) j = Some q' ->
                      Point_equals_exact p q' (atol t) = false)
     /\ nth_error (gmsh_points t) i = Some h
     /\ forall resolution, add_get_point p resolution t = (Return h, t))
  /\ ((0 <= atol t)%Q ->
      forall r1 r2, exists h t1,
        add_get_point p r1 t = (Return h, t1)
        /\ add_get_point p r2 t1 = (Return h, t1)).
Proof.
  intros Hc. split.
  - intros Hex.
    destruct (get_point_index_hit p Hc Hex) as (i & q & h & Hi & Hn & Hq & Hmin & Hh).
    exists i, q, h. repeat split; auto.
    intros resolution. unfold add_get_point. now rewrite Hi, Hh.
  - intros Htol r1 r2. unfold add_get_point at 1.
    destruct (get_point_index t p) as [i |] eqn:Hi.
    + unfold get_point_index in Hi.
      pose proof (scan_points_spec (atol t) p (shapely_points t) 0) as Hs.
      rewrite Hi in Hs. destruct Hs as (j & q & -> & Hn & _). simpl in *.
      assert (Hlt : j < length (gmsh_points t)).
      { destruct Hc as [<- _]. apply nth_error_Some. congruence. }
      apply nth_error_Some in Hlt.
      destruct (nth_error (gmsh_points t) j) as [h |] eqn:Hh; [| congruence].
      exists h, t. split; auto.
      unfold add_get_point, get_point_index. now rewrite Hi, Hh.
    + simpl. eexists. eexists. split; [reflexivity |].
      unfold add_get_point, get_point_index. simpl.
      unfold get_point_index in Hi.
      rewrite scan_points_app, Hi. simpl.
      rewrite (Point_equals_exact_refl p Htol).
      destruct Hc as [Hlen _]. rewrite Hlen.
      rewrite nth_error_app2 by lia. now rewrite Nat.sub_diag.
Qed.

Lemma add_get_point_reuses_witness :
  (exists h, forall resolution,
      add_get_point near_origin resolution tracker_with_origin
      = (Return h, tracker_with_origin))
  /\ (exists h t1,
         add_get_point near_origin None tracker_with_origin = (Return h, t1)
         /\ add_get_point near_origin (Some 1%Q) t1 = (Return h, t1)).
Proof.
  assert (Hc : consistent tracker_with_origin) by (split; reflexivity).
  destruct (add_get_point_reuses near_origin Hc) as [H1 H2].
  split.
  - destruct H1 as (i & q & h & _ & _ & _ & _ & Hall).
    + exists corner00. split; [left; reflexivity | vm_compute; reflexivity].
    + exists h. exact Hall.
  - apply H2. vm_compute. discriminate.
Defined.

(** ** Looking a segment up *)

Lemma two_point_match p1 p2 l tol :
  LineString_equals_exact [p1; p2] l tol = true ->
  exists s1 s2,
    l = [s1; s2]
    /\ Point_equals_exact p1 s1 tol = true
    /\ Point_equals_exact p2 s2 tol = true.
Proof.
  destruct l as [| s1 [| s2 [| s3 l]]]; simpl; try discriminate.
  - rewrite andb_false_r. discriminate.
  - rewrite andb_true_r. intros H. apply andb_prop in H. destruct H. eauto.
  - rewrite !andb_false_r. discriminate.
Qed.

Lemma boundary_two_points p1 p2 :
  boundary [p1; p2] = if Point_same p1 p2 then [] else [p1; p2].
Proof. reflexivity. Qed.

(** The query in the reverse direction matches a stored segment only when
    its two end points are within tolerance of each other. *)
Lemma reversed_query_no_match a b tol :
  Point_equals_exact b a tol = false ->
  LineString_equals_exact [b; a] [a; b] tol = false.
Proof. intros H. simpl. now rewrite H. Qed.

Lemma scan_lines_cons tol xy_line shapely_line rest index :
  scan_lines tol xy_line (shapely_line :: rest) index =
  if LineString_equals_exact xy_line shapely_line tol then
    match boundary xy_line, boundary shapely_line with
    | [first_xy_line; _], [first_xy; _] =>
        if Point_equals_exact first_xy_line first_xy tol
        then Return (Some index, PyBool true)
        else Return (Some index, PyBool false)
    | _, _ => Raise ValueError
    end
  else scan_lines tol xy_line rest (S index).
Proof. reflexivity. Qed.


(** A segment that is found is always reported in the stored direction: the
    branch answering [False] (mesh.py:45) is never taken. *)
Lemma scan_lines_never_reversed tol p1 p2 ls k i o :
  scan_lines tol [p1; p2] ls k = Return (Some i, o) -> o = PyBool true.
Proof.
  revert k. induction ls as [| a rest IH]; intros k.
  - discriminate.
  - rewrite scan_lines_cons.
    destruct (LineString_equals_exact [p1; p2] a tol) eqn:E.
    + destruct (two_point_match _ _ _ _ E) as (s1 & s2 & -> & H1 & H2).
      rewrite !boundary_two_points.
      destruct (Point_same p1 p2); [simpl; discriminate |].
      destruct (Point_same s1 s2); [simpl; discriminate |].
      rewrite H1. congruence.
    + apply IH.
Qed.

Lemma get_xy_line_index_and_orientation_never_reversed t p1 p2 i :
  get_xy_line_index_and_orientation t p1 p2 <> Return (Some i, PyBool false).
Proof.
  unfold get_xy_line_index_and_orientation. intros H.
  apply scan_lines_never_reversed in H. discriminate.
Qed.



(** ** What registering leaves alone *)

Lemma same_surfaces_refl t : same_surfaces t t.
Proof. repeat split. Qed.

Lemma same_surfaces_trans t1 t2 t3 :
  same_surfaces t1 t2 -> same_surfaces t2 t3 -> same_surfaces t1 t3.
Proof. unfold same_surfaces. intuition congruence. Qed.



(** C3, as the code behaves. After the segment from (0,0) to (1,0) has been
    registered, the query from (1,0) to (0,0) is not recognised: it is
    registered as a second segment with a new handle and reported with
    orientation 1, where the first handle and orientation false are
    expected. *)
Theorem reversed_segment_is_duplicated :
  let '(r1, t1) := add_get_xy_line corner00 corner10 fresh_tracker in
  let '(r2, t2) := add_get_xy_line corner10 corner00 t1 in
  r1 = Return (1%Z, PyInt 1)
  /\ r2 = Return (2%Z, PyInt 1)
  /\ gmsh_xy_lines t2 = [1%Z; 2%Z]
  /\ shapely_xy_lines t2 = [[corner00; corner10]; [corner10; corner00]].
Proof. vm_compute. repeat split. Qed.

(** The same through a whole build: two squares side by side walk their
    common edge in opposite directions, and the edge ends up in the registry
    and in the model twice, as lines 2 and 8. *)
Lemma shared_edge_registered_twice :
  let t := snd (mesh_from_polygons difference_of_disjoint
                  [("left"%string, unit_square); ("right"%string, right_square)]
                  (Some []) (1 # 100) (1 # 10)) in
  nth_error (shapely_xy_lines t) 1 = Some [corner10; corner11]
  /\ nth_error (shapely_xy_lines t) 7 = Some [corner11; corner10]
  /\ gmsh_xy_lines t = [1; 2; 3; 4; 5; 6; 7; 8]%Z
  /\ Gmsh.curve_loops (model t) = [[1; 2; 3; 4]; [5; 6; 7; 8]]%Z.
Proof. vm_compute. repeat split. Qed.



(** The handles in the registry are tags of the model, before and after every
    operation. *)
Lemma tags_issued_kept g resolution :
  respects (fun t t' => tags_issued t -> tags_issued t') (add_xy_surface g resolution).
Proof.
  apply respects_add_xy_surface; try solve [intros; simpl; auto].
  intros t l p0 p1. simpl. unfold tags_issued. simpl. intros H.
  apply Forall_app. split.
  - eapply Forall_impl; [| exact H]. simpl. intros h Hh.
    rewrite length_app. simpl. lia.
  - constructor; [| constructor]. unfold Gmsh.next_tag.
    rewrite length_app. simpl. lia.
Qed.

Lemma fresh_tracker_tags_issued : tags_issued fresh_tracker.
Proof. constructor. Qed.

(** ** Building a loop *)

Lemma consecutive_pairs_length vertices :
  length (consecutive_pairs vertices) = length vertices - 1.
Proof.
  induction vertices as [| v1 [| v2 rest] IH]; try reflexivity.
  change (S (length (consecutive_pairs (v2 :: rest))) = S (length (v2 :: rest)) - 1).
  rewrite IH. simpl. lia.
Qed.

Lemma collect_edges_same_surfaces pairs edges :
  respects same_surfaces (collect_edges pairs edges).
Proof.
  apply respects_collect_edges;
    solve [ apply same_surfaces_refl | apply same_surfaces_trans
          | intros; repeat split ].
Qed.

Lemma collect_edges_grows pairs edges : respects grows (collect_edges pairs edges).
Proof. apply respects_collect_edges; grows_steps. Qed.






(** ** Assembling the surfaces *)

Lemma contains_getitem (V : Type) (key : string) (d : OrderedDict V) :
  if contains key d then exists v, getitem key d = Some v else getitem key d = None.
Proof.
  induction d as [| [k v] rest IH]; simpl.
  - reflexivity.
  - destruct (String.eqb k key); simpl; [eauto | exact IH].
Qed.

(** With a table at hand the lookup cannot fail: a listed name gets its
    value, any other name gets no resolution. *)
Lemma lookup_resolution_table table polygon_name t :
  lookup_resolution (Some table) polygon_name t = (Return (getitem polygon_name table), t).
Proof.
  unfold lookup_resolution.
  pose proof (contains_getitem polygon_name table) as H.
  destruct (contains polygon_name table).
  - destruct H as (v & ->). reflexivity.
  - now rewrite H.
Qed.

Lemma add_surfaces_cons polygon_name polygon rest resolutions :
  add_surfaces ((polygon_name, polygon) :: rest) resolutions =
  (resolution <- lookup_resolution resolutions polygon_name ;;
   plane_surface <- add_xy_surface polygon resolution ;;
   _ <- update_model (Gmsh.add_physical Gmsh.Surface plane_surface polygon_name) ;;
   add_surfaces rest resolutions).
Proof. reflexivity. Qed.



(** C7, as the code behaves. A multi-part resolved layer is not assembled
    part by part: reading its rings raises [AttributeError], the tracker and
    the model stay as they were, and no build whose layers include a
    multi-part one completes. *)
Theorem add_surfaces_multi_part (t : MeshTracker) (polygon_name : string)
    (parts : list Polygon) (rest : list (string * Geometry)) (table : OrderedDict Q) :
  (forall resolution,
      add_xy_surface (GMultiPolygon parts) resolution t = (Raise AttributeError, t))
  /\ add_surfaces ((polygon_name, GMultiPolygon parts) :: rest) (Some table) t
     = (Raise AttributeError, t)
  /\ forall before t0,
      fst (add_surfaces (before ++ (polygon_name, GMultiPolygon parts) :: rest)
             (Some table) t0) <> Return tt.
Proof.
  split; [reflexivity |]. split.
  - rewrite add_surfaces_cons. unfold bind at 1.
    rewrite lookup_resolution_table. reflexivity.
  - intros before. induction before as [| [name g] before IH]; intros t0.
    + rewrite app_nil_l, add_surfaces_cons. unfold bind at 1.
      rewrite lookup_resolution_table. simpl. discriminate.
    + rewrite <- app_comm_cons, add_surfaces_cons. unfold bind at 1.
      rewrite lookup_resolution_table.
      unfold bind at 1.
      destruct (add_xy_surface g (getitem name table) t0) as [[s | e] t1].
      * unfold bind at 1. simpl. apply IH.
      * simpl. discriminate.
Qed.

(** C7, refuted as stated: a layer of two islands raises instead of giving
    two surfaces. *)
Lemma two_islands_raise :
  add_surfaces [("plate"%string, two_islands)] (Some []) fresh_tracker
  = (Raise AttributeError, fresh_tracker).
Proof. reflexivity. Qed.

(** ** Building without a resolution table *)

Lemma setitem_not_nil (V : Type) (key : string) (v : V) (d : OrderedDict V) :
  setitem key v d <> [].
Proof.
  destruct d as [| [k w] rest]; simpl; [discriminate |].
  destruct (String.eqb k key); discriminate.
Qed.

Lemma polygons_tiled_not_nil (G : Type) (difference : G -> G -> G)
    (polygon_dict : OrderedDict G) :
  polygon_dict <> [] -> polygons_tiled difference polygon_dict <> [].
Proof.
  destruct polygon_dict as [| [name g] rest]; [congruence | intros _].
  unfold polygons_tiled, enumerate. simpl length. simpl seq. simpl combine.
  simpl rev. rewrite fold_left_app. simpl. apply setitem_not_nil.
Qed.

(** C10. Without a resolution table (the default [None]) every build of a
    non-empty stack raises [AttributeError] at the first region, before
    anything is added to the tracker or the model; the build of an empty
    stack does not. With a table, a region the table does not list gets no
    resolution, and the lookup does not raise. *)
Theorem mesh_from_polygons_needs_resolutions
    (difference : Geometry -> Geometry -> Geometry)
    (polygon_dict : OrderedDict Geometry)
    (default_resolution_min default_resolution_max : Q) :
  polygon_dict <> [] ->
  mesh_from_polygons difference polygon_dict None
    default_resolution_min default_resolution_max
  = (Raise AttributeError,
     MeshTracker_init (Gmsh.Geometry default_resolution_min default_resolution_max)
       default_atol)
  /\ (exists geometry,
         fst (mesh_from_polygons difference [] None
                default_resolution_min default_resolution_max) = Return geometry)
  /\ (forall table polygon_name t,
         contains polygon_name table = false ->
         lookup_resolution (Some table) polygon_name t = (Return None, t)).
Proof.
  intros Hne. split; [| split].
  - unfold mesh_from_polygons, build.
    pose proof (polygons_tiled_not_nil difference Hne) as Ht.
    destruct (rev (polygons_tiled difference polygon_dict)) as [| [name g] rest] eqn:E.
    + apply (f_equal (@rev _)) in E. rewrite rev_involutive in E. now elim Ht.
    + reflexivity.
  - eexists. reflexivity.
  - intros table polygon_name t H. rewrite lookup_resolution_table.
    pose proof (contains_getitem polygon_name table) as Hg. rewrite H in Hg.
    now rewrite Hg.
Qed.

Lemma mesh_from_polygons_needs_resolutions_witness :
  fst (mesh_from_polygons difference_of_disjoint [("core"%string, unit_square)] None
         (1 # 100) (1 # 10))
  = Raise AttributeError.
Proof.
  rewrite (proj1 (@mesh_from_polygons_needs_resolutions difference_of_disjoint
                    [("core"%string, unit_square)] (1 # 100) (1 # 10)
                    ltac:(discriminate))).
  reflexivity.
Defined.

(** ** The registry through a whole build *)

Lemma add_surfaces_grows items resolutions :
  respects grows (add_surfaces items resolutions).
Proof.
  induction items as [| [name g] rest IH].
  - intros t. apply grows_refl.
  - rewrite add_surfaces_cons.
    apply respects_bind; [exact grows_trans | | intros resolution].
    + intros t. unfold lookup_resolution.
      destruct resolutions as [table |]; [| apply grows_refl].
      destruct (contains name table); [| apply grows_refl].
      destruct (getitem name table); apply grows_refl.
    + apply respects_bind;
        [exact grows_trans | apply add_xy_surface_grows | intros s].
      apply respects_bind; [exact grows_trans | | intros _; exact IH].
      intros t. apply grows_model.
Qed.

Lemma label_lines_grows gmsh_lines i : respects grows (label_lines gmsh_lines i).
Proof.
  revert i. induction gmsh_lines as [| line rest IH]; intros i; simpl.
  - intros t. apply grows_refl.
  - apply respects_bind; [exact grows_trans | | intros _; apply IH].
    intros t. apply grows_model.
Qed.

(** Every build ends with parallel lists of equal length, whatever its
    outcome. *)
Lemma mesh_from_polygons_consistent difference polygon_dict resolutions lmin lmax :
  consistent (snd (mesh_from_polygons difference polygon_dict resolutions lmin lmax)).
Proof.
  unfold mesh_from_polygons.
  set (t0 := MeshTracker_init (Gmsh.Geometry lmin lmax) default_atol).
  assert (Hg : grows t0 (snd (build difference polygon_dict resolutions t0))).
  { unfold build.
    apply respects_bind; [exact grows_trans | apply add_surfaces_grows | intros _].
    apply respects_bind; [exact grows_trans | | intros _].
    { intros t. apply grows_model. }
    apply respects_bind; [exact grows_trans | | intros _].
    { intros t. apply label_lines_grows. }
    intros t. apply grows_model. }
  destruct (build difference polygon_dict resolutions t0) as [[u | e] t1];
    simpl in *; apply (grows_consistent Hg); split; reflexivity.
Qed.

(** ** Layer tiling *)

Lemma combine_seq_In (A : Type) (l : list A) k i x :
  In (i, x) (combine (seq k (length l)) l) <-> k <= i /\ nth_error l (i - k) = Some x.
Proof.
  revert k. induction l as [| a l IH]; intros k; simpl.
  - split; [tauto |]. intros [_ H]. destruct (i - k); discriminate.
  - rewrite IH. split.
    + intros [E | [Hle Hn]].
      * injection E as <- <-. rewrite Nat.sub_diag. auto.
      * split; [lia |]. replace (i - k) with (S (i - S k)) by lia. exact Hn.
    + intros [Hle Hn]. destruct (Nat.eq_dec i k) as [-> | Hne].
      * left. rewrite Nat.sub_diag in Hn. simpl in Hn. congruence.
      * right. split; [lia |].
        replace (i - k) with (S (i - S k)) in Hn by lia. exact Hn.
Qed.

Lemma enumerate_In (A : Type) (l : list A) i x :
  In (i, x) (enumerate l) <-> nth_error l i = Some x.
Proof.
  unfold enumerate. rewrite combine_seq_In, Nat.sub_0_r.
  split; [tauto | split; [lia | assumption]].
Qed.

Lemma combine_seq_snd (A : Type) (l : list A) k :
  map snd (combine (seq k (length l)) l) = l.
Proof.
  revert k. induction l as [| a l IH]; intros k; simpl; [| rewrite IH]; reflexivity.
Qed.

Lemma enumerate_snd (A : Type) (l : list A) : map snd (enumerate l) = l.
Proof. apply combine_seq_snd. Qed.

Lemma existsb_rev_eq (A : Type) (f : A -> bool) (l : list A) :
  existsb f (rev l) = existsb f l.
Proof.
  induction l as [| a l IH]; simpl; [reflexivity |].
  rewrite existsb_app, IH. simpl. rewrite orb_false_r. apply orb_comm.
Qed.

Lemma existsb_map_eq (A B : Type) (f : B -> bool) (h : A -> B) (l : list A) :
  existsb f (map h l) = existsb (fun a => f (h a)) l.
Proof. induction l as [| a l IH]; simpl; [| rewrite IH]; reflexivity. Qed.


Lemma setitem_fresh (V : Type) (key : string) (v : V) (d : OrderedDict V) :
  ~ In key (keys d) -> setitem key v d = d ++ [(key, v)].
Proof.
  induction d as [| [k w] rest IH]; simpl; intros Hnot; [reflexivity |].
  destruct (String.eqb_spec k key) as [-> | Hne].
  - elim Hnot. now left.
  - f_equal. apply IH. intros Hin. apply Hnot. now right.
Qed.

Section TilerFacts.

Variables G P : Type.
Variable difference : G -> G -> G.

Lemma item_names (polygon_dict : OrderedDict G) :
  map (@item_name G) (enumerate polygon_dict) = keys polygon_dict.
Proof.
  unfold keys. rewrite <- (enumerate_snd polygon_dict) at 2.
  rewrite map_map. reflexivity.
Qed.

Lemma fold_tile_step (polygon_dict : OrderedDict G) l :
  forall acc,
    NoDup (keys acc ++ map (@item_name G) l) ->
    fold_left (tile_step difference polygon_dict) l acc
    = acc ++ map (tiled_item difference polygon_dict) l.
Proof.
  induction l as [| [i [n g]] l IH]; intros acc Hnd; simpl.
  - now rewrite app_nil_r.
  - pose proof (NoDup_remove_2 _ _ _ Hnd) as Hfresh.
    rewrite setitem_fresh.
    + rewrite IH.
      * rewrite <- app_assoc. reflexivity.
      * unfold keys in *. rewrite map_app, <- app_assoc. exact Hnd.
    + intros Hin. apply Hfresh. apply in_or_app. now left.
Qed.

Lemma polygons_tiled_items (polygon_dict : OrderedDict G) :
  NoDup (keys polygon_dict) ->
  polygons_tiled difference polygon_dict
  = map (tiled_item difference polygon_dict) (rev (enumerate polygon_dict)).
Proof.
  intros Hnd. unfold polygons_tiled. rewrite fold_tile_step; [reflexivity |].
  simpl. rewrite map_rev, item_names. now apply NoDup_rev.
Qed.

Lemma getitem_tiled_item (polygon_dict : OrderedDict G) l i name g :
  NoDup (map (@item_name G) l) ->
  In (i, (name, g)) l ->
  getitem name (map (tiled_item difference polygon_dict) l)
  = Some (layer_of difference polygon_dict i g).
Proof.
  induction l as [| [i' [n' g']] l IH]; intros Hnd Hin; [destruct Hin |].
  inversion Hnd as [| x xs Hfresh Hnd']; subst.
  simpl in *. unfold item_name at 1. simpl.
  destruct Hin as [E | Hin].
  - injection E as -> -> ->. now rewrite String.eqb_refl.
  - destruct (String.eqb_spec n' name) as [-> | Hne].
    + elim Hfresh.
      change (item_name (i', (name, g'))) with (item_name (i, (name, g))).
      now apply in_map.
    + now apply IH.
Qed.


Variable covers : G -> P -> bool.
Hypothesis difference_covers :
  forall a b p, covers (difference a b) p = covers a p && negb (covers b p).

Lemma subtract_higher_covers g hs p :
  covers (subtract_higher difference g hs) p
  = covers g p && negb (existsb (fun h => covers (snd (snd h)) p) hs).
Proof.
  revert g. induction hs as [| [i [n h]] hs IH]; intros g.
  - simpl. now rewrite andb_true_r.
  - unfold subtract_higher in *. simpl. rewrite IH, difference_covers.
    destruct (covers g p), (covers h p); reflexivity.
Qed.

Lemma layer_of_covers (polygon_dict : OrderedDict G) i g p :
  covers (layer_of difference polygon_dict i g) p
  = covers g p && negb (covered_by_any covers (firstn i (values polygon_dict)) p).
Proof.
  unfold layer_of, covered_by_any, values.
  rewrite subtract_higher_covers, existsb_rev_eq.
  rewrite <- (enumerate_snd polygon_dict) at 2.
  rewrite map_map, firstn_map, existsb_map_eq. reflexivity.
Qed.

Lemma tiled_names_distinct (polygon_dict : OrderedDict G) :
  NoDup (keys polygon_dict) ->
  NoDup (map (@item_name G) (rev (enumerate polygon_dict))).
Proof. intros Hnd. rewrite map_rev, item_names. now apply NoDup_rev. Qed.


(** C1, as the code behaves. The tiling gives priority to the entries
    declared first: the resolved layer of every entry covers its polygon
    minus all earlier-indexed polygons, and the later-indexed polygons take
    nothing from it. The tiled mapping lists the names in reverse input
    order. For a background R0 followed by a foreground R1, R0's layer is R0
    unchanged and R1's layer is R1 minus R0. *)
Theorem polygons_tiled_first_declared_wins (polygon_dict : OrderedDict G) :
  NoDup (keys polygon_dict) ->
  first_declared_wins covers polygon_dict (polygons_tiled difference polygon_dict)
  /\ keys (polygons_tiled difference polygon_dict) = rev (keys polygon_dict)
  /\ forall n0 n1 R0 R1,
      n0 <> n1 ->
      polygons_tiled difference [(n0, R0); (n1, R1)]
      = [(n1, difference R1 R0); (n0, R0)].
Proof.
  intros Hnd. rewrite (@polygons_tiled_items polygon_dict Hnd). split; [| split].
  - intros i name g Hn. exists (layer_of difference polygon_dict i g). split.
    + apply getitem_tiled_item.
      * now apply tiled_names_distinct.
      * apply -> in_rev. now apply enumerate_In.
    + intros p. apply layer_of_covers.
  - unfold keys. rewrite map_map.
    change (map (@item_name G) (rev (enumerate polygon_dict))
            = rev (map fst polygon_dict)).
    rewrite map_rev. f_equal. apply item_names.
  - intros n0 n1 R0 R1 Hne. unfold polygons_tiled. simpl.
    destruct (String.eqb_spec n1 n0) as [E | _]; [congruence | reflexivity].
Qed.


End TilerFacts.

Lemma stacked_names_distinct : NoDup (keys stacked).
Proof.
  constructor; [| constructor; [intros [] | constructor]].
  intros [H | []]. discriminate.
Qed.

Lemma polygons_tiled_first_declared_wins_witness :
  first_declared_wins PointSet.covers stacked
    (polygons_tiled PointSet.difference stacked)
  /\ polygons_tiled PointSet.difference stacked
     = [("R1"%string, PointSet.difference foreground background);
        ("R0"%string, background)].
Proof.
  destruct (@polygons_tiled_first_declared_wins PointSet.region Point
              PointSet.difference PointSet.covers (fun a b p => eq_refl)
              stacked stacked_names_distinct) as (H1 & _ & H3).
  split; [exact H1 | apply H3; discriminate].
Defined.

(** C1, refuted as stated: with the unit square declared first and the
    smaller square second, the layer of the unit square still covers the
    centre, which lies in the later polygon; the tiling is not
    last-declared-wins. *)
Lemma tiling_is_not_last_declared_wins :
  ~ last_declared_wins PointSet.covers stacked
      (polygons_tiled PointSet.difference stacked).
Proof.
  intros H.
  destruct (H 0 "R0"%string background eq_refl) as (layer & Hget & Hcov).
  injection Hget as <-. specialize (Hcov centre).
  vm_compute in Hcov. discriminate.
Qed.


(* ------------------------------------------------------------------------- *)
(** * Further properties of the registry, the builders and the build *)

(** ** Segments found again *)

Lemma scan_lines_hit tol p1 p2 ls :
  forall k,
    Forall (fun l => is_open l = true) ls ->
    Point_same p1 p2 = false ->
    (exists l, In l ls /\ LineString_equals_exact [p1; p2] l tol = true) ->
    exists j l,
      scan_lines tol [p1; p2] ls k = Return (Some (k + j), PyBool true)
      /\ nth_error ls j = Some l
      /\ LineString_equals_exact [p1; p2] l tol = true
      /\ forall j' l', j' < j -> nth_error ls j' = Some l' ->
                       LineString_equals_exact [p1; p2] l' tol = false.
Proof.
  induction ls as [| a rest IH]; intros k Hopen Hp Hex.
  - destruct Hex as (l & [] & _).
  - rewrite scan_lines_cons.
    inversion Hopen as [| x xs Ha Hrest]; subst.
    destruct (LineString_equals_exact [p1; p2] a tol) eqn:E.
    + destruct (two_point_match _ _ _ _ E) as (s1 & s2 & -> & H1 & H2).
      unfold is_open in Ha. rewrite boundary_two_points in Ha.
      rewrite !boundary_two_points, Hp.
      destruct (Point_same s1 s2); [discriminate |]. rewrite H1.
      exists 0, [s1; s2]. rewrite Nat.add_0_r. repeat split; auto.
      intros j' l' Hlt. lia.
    + destruct (IH (S k) Hrest Hp) as (j & l & Hs & Hn & Hm & Hmin).
      { destruct Hex as (l & [-> | Hin] & Hm); [congruence | eauto]. }
      exists (S j), l. repeat split; auto.
      * rewrite Hs. do 3 f_equal. lia.
      * intros [| j'] l' Hlt Hn'; simpl in Hn'.
        -- congruence.
        -- apply (Hmin j'); [lia | exact Hn'].
Qed.

(** X1. A segment queried in the direction it is stored in, within tolerance
    end point by end point, is answered with the handle of the earliest such
    stored segment and orientation [True]; tracker and model are left as they
    were. (No zero-length segment is involved.) *)
Theorem add_get_xy_line_reuses (t : MeshTracker) (p1 p2 : Point) :
  consistent t ->
  open_lines t ->
  Point_same p1 p2 = false ->
  (exists l, In l (shapely_xy_lines t)
             /\ LineString_equals_exact [p1; p2] l (atol t) = true) ->
  exists i l h,
    nth_error (shapely_xy_lines t) i = Some l
    /\ LineString_equals_exact [p1; p2] l (atol t) = true
    /\ (forall j l', j < i -> nth_error (shapely_xy_lines t) j = Some l' ->
                     LineString_equals_exact [p1; p2] l' (atol t) = false)
    /\ nth_error (gmsh_xy_lines t) i = Some h
    /\ add_get_xy_line p1 p2 t = (Return (h, PyBool true), t).
Proof.
  intros [_ Hlen] Hopen Hp Hex.
  destruct (@scan_lines_hit (atol t) p1 p2 (shapely_xy_lines t) 0 Hopen Hp Hex)
    as (j & l & Hs & Hn & Hm & Hmin).
  assert (Hlt : j < length (gmsh_xy_lines t)).
  { rewrite <- Hlen. apply nth_error_Some. congruence. }
  apply nth_error_Some in Hlt.
  destruct (nth_error (gmsh_xy_lines t) j) as [h |] eqn:Hh; [| congruence].
  exists j, l, h. repeat split; auto.
  unfold add_get_xy_line, get_xy_line_index_and_orientation.
  rewrite Hs. simpl. now rewrite Hh.
Qed.

Lemma add_get_xy_line_reuses_witness :
  exists h,
    add_get_xy_line corner00 corner10 tracker_with_edge
    = (Return (h, PyBool true), tracker_with_edge).
Proof.
  destruct (@add_get_xy_line_reuses tracker_with_edge corner00 corner10)
    as (i & l & h & _ & _ & _ & _ & E).
  - split; reflexivity.
  - constructor; [reflexivity | constructor].
  - reflexivity.
  - exists [corner00; corner10]. split; [left; reflexivity | reflexivity].
  - exists h. exact E.
Defined.




(** ** The pairs a loop is built from *)


(** ** The layers, whatever [difference] computes *)

Lemma subtract_higher_values (G : Type) (difference : G -> G -> G) hs :
  forall g,
    subtract_higher difference g hs
    = fold_left difference (map (fun h => snd (snd h)) hs) g.
Proof.
  induction hs as [| [i [n h]] hs IH]; intros g; [reflexivity |].
  unfold subtract_higher in *. simpl. apply IH.
Qed.

(** X4. For a mapping with distinct names, the resolved layer stored under
    the name at index i is its polygon with the polygons at indices i-1,
    i-2, ..., 0 subtracted one after the other, in that order; the polygon
    at index 0 is stored unchanged. This holds for any [difference]. *)
Theorem polygons_tiled_layer (G : Type) (difference : G -> G -> G)
    (polygon_dict : OrderedDict G) (i : nat) (name : string) (g : G) :
  NoDup (keys polygon_dict) ->
  nth_error polygon_dict i = Some (name, g) ->
  getitem name (polygons_tiled difference polygon_dict)
  = Some (fold_left difference (rev (firstn i (values polygon_dict))) g)
  /\ (i = 0 -> getitem name (polygons_tiled difference polygon_dict) = Some g).
Proof.
  intros Hnd Hn.
  assert (H : getitem name (polygons_tiled difference polygon_dict)
              = Some (fold_left difference (rev (firstn i (values polygon_dict))) g)).
  { rewrite (@polygons_tiled_items G difference polygon_dict Hnd).
    rewrite (@getitem_tiled_item G difference polygon_dict
               (rev (enumerate polygon_dict)) i name g).
    - unfold layer_of. rewrite subtract_higher_values.
      unfold values. rewrite <- (enumerate_snd polygon_dict) at 2.
      rewrite map_map, firstn_map, map_rev. reflexivity.
    - now apply tiled_names_distinct.
    - apply -> in_rev. now apply enumerate_In. }
  split; [exact H |]. intros ->. exact H.
Qed.

Lemma polygons_tiled_layer_witness :
  getitem "c"
    (polygons_tiled (fun a b => String.append a (String.append "-" b))
       [("a", "A"); ("b", "B"); ("c", "C")]%string)
  = Some "C-B-A"%string.
Proof.
  apply (@polygons_tiled_layer string
           (fun a b => String.append a (String.append "-" b))
           [("a", "A"); ("b", "B"); ("c", "C")]%string 2 "c" "C"%string).
  - repeat constructor; simpl; intuition discriminate.
  - reflexivity.
Defined.

(** ** Regions assembled one after the other *)


(** ** Labels of the registry lines *)

Lemma line_label_injective i j : line_label i = line_label j -> i = j.
Proof.
  unfold line_label. simpl. intros H. injection H as H.
  apply (f_equal NilEmpty.uint_of_string) in H.
  rewrite !NilEmpty.usu in H. injection H as H.
  apply (f_equal Nat.of_uint) in H.
  now rewrite !DecimalNat.Unsigned.of_to in H.
Qed.

(** X6. The labels given to the registry lines are pairwise different: line
    number i gets the label made of "line_" and the decimal digits of i, and
    two numbers never share their digits. *)
Theorem curve_labels_distinct (first : nat) (gmsh_lines : list Z) :
  NoDup (map snd (curve_labels first gmsh_lines))
  /\ forall i j, line_label i = line_label j -> i = j.
Proof.
  split; [| exact line_label_injective].
  unfold curve_labels. rewrite map_map. simpl.
  revert first. induction gmsh_lines as [| l rest IH]; intros first; simpl.
  - constructor.
  - constructor; [| apply IH].
    intros Hin. apply in_map_iff in Hin. destruct Hin as ([i l'] & E & Hin).
    simpl in E. apply line_label_injective in E. subst i.
    apply in_combine_l in Hin. apply in_seq in Hin. lia.
Qed.

(** ** Invariants through the builders and the build *)

Lemma kept_refl (I : MeshTracker -> Prop) t : kept I t t.
Proof. intros H. exact H. Qed.

Lemma kept_trans (I : MeshTracker -> Prop) t1 t2 t3 :
  kept I t1 t2 -> kept I t2 t3 -> kept I t1 t3.
Proof. unfold kept. auto. Qed.

Section Invariant.

Variable I : MeshTracker -> Prop.
Hypothesis I_point :
  forall p resolution, respects (kept I) (add_get_point p resolution).
Hypothesis I_xy_line :
  forall p1 p2, respects (kept I) (add_get_xy_line p1 p2).
Hypothesis I_model :
  forall t m,
    Gmsh.points m = Gmsh.points (model t) ->
    Gmsh.lines m = Gmsh.lines (model t) ->
    I t -> I (set_model m t).

Ltac kept_bind := apply respects_bind; [exact (@kept_trans I) | |].

Lemma kept_collect_edges pairs edges : respects (kept I) (collect_edges pairs edges).
Proof.
  revert edges. induction pairs as [| [v1 v2] rest IH]; intros edges; simpl.
  - intros t. apply kept_refl.
  - kept_bind; [apply I_xy_line | intros [l o]; apply IH].
Qed.

Lemma kept_xy_channel_loop_from_vertices vertices :
  respects (kept I) (xy_channel_loop_from_vertices vertices).
Proof.
  unfold xy_channel_loop_from_vertices.
  kept_bind; [apply kept_collect_edges | intros edges].
  intros t Ht. apply I_model; auto.
Qed.

Lemma kept_register_vertices coords resolution vertices :
  respects (kept I) (register_vertices coords resolution vertices).
Proof.
  revert vertices. induction coords as [| v rest IH]; intros vertices; simpl.
  - intros t. apply kept_refl.
  - kept_bind; [apply I_point | intros _; apply IH].
Qed.

Lemma kept_parse_holes holes resolution hole_loops :
  respects (kept I) (parse_holes holes resolution hole_loops).
Proof.
  revert hole_loops. induction holes as [| h rest IH]; intros hole_loops; simpl.
  - intros t. apply kept_refl.
  - kept_bind; [apply kept_register_vertices | intros vs].
    kept_bind; [apply kept_xy_channel_loop_from_vertices | intros l; apply IH].
Qed.

Lemma kept_add_xy_surface g resolution :
  respects (kept I) (add_xy_surface g resolution).
Proof.
  destruct g as [polygon | parts]; simpl.
  - kept_bind; [apply kept_parse_holes | intros hl].
    kept_bind; [apply kept_register_vertices | intros vs].
    kept_bind; [apply kept_xy_channel_loop_from_vertices | intros l].
    intros t Ht. apply I_model; auto.
  - intros t. apply kept_refl.
Qed.

Lemma kept_add_surfaces items resolutions :
  respects (kept I) (add_surfaces items resolutions).
Proof.
  induction items as [| [name g] rest IH].
  - intros t. apply kept_refl.
  - rewrite add_surfaces_cons. kept_bind; [| intros resolution].
    + intros t. unfold lookup_resolution.
      destruct resolutions as [table |]; [| apply kept_refl].
      destruct (contains name table); [| apply kept_refl].
      destruct (getitem name table); apply kept_refl.
    + kept_bind; [apply kept_add_xy_surface | intros s].
      kept_bind; [| intros _; exact IH].
      intros t Ht. apply I_model; auto.
Qed.

Lemma kept_label_lines gmsh_lines i : respects (kept I) (label_lines gmsh_lines i).
Proof.
  revert i. induction gmsh_lines as [| line rest IH]; intros i; simpl.
  - intros t. apply kept_refl.
  - kept_bind; [| intros _; apply IH].
    intros t Ht. apply I_model; auto.
Qed.

Lemma kept_mesh_from_polygons difference polygon_dict resolutions lmin lmax :
  I (MeshTracker_init (Gmsh.Geometry lmin lmax) default_atol) ->
  I (snd (mesh_from_polygons difference polygon_dict resolutions lmin lmax)).
Proof.
  intros H0. unfold mesh_from_polygons.
  set (t0 := MeshTracker_init (Gmsh.Geometry lmin lmax) default_atol) in *.
  assert (Hb : respects (kept I) (build difference polygon_dict resolutions)).
  { unfold build.
    kept_bind; [apply kept_add_surfaces | intros _].
    kept_bind; [intros t Ht; apply I_model; auto | intros _].
    kept_bind; [intros t; apply kept_label_lines | intros _].
    intros t Ht. apply I_model; auto. }
  specialize (Hb t0 H0).
  destruct (build difference polygon_dict resolutions t0) as [[u | e] t1];
    exact Hb.
Qed.

End Invariant.

(** ** The registry mirrors the model *)

Lemma tags_upto_S n : tags_upto (S n) = tags_upto n ++ [Z.of_nat (S n)].
Proof. unfold tags_upto. rewrite seq_S, map_app. reflexivity. Qed.

Lemma tags_upto_length n : length (tags_upto n) = n.
Proof. unfold tags_upto. now rewrite length_map, length_seq. Qed.

Lemma tags_upto_nth n j :
  j < n -> nth_error (tags_upto n) j = Some (Z.of_nat (S j)).
Proof.
  intros H. unfold tags_upto. rewrite nth_error_map, nth_error_seq.
  apply Nat.ltb_lt in H. now rewrite H.
Qed.

Lemma tags_upto_NoDup n : NoDup (tags_upto n).
Proof.
  apply NoDup_nth_error. intros i j Hi E. rewrite tags_upto_length in Hi.
  rewrite (tags_upto_nth Hi) in E.
  destruct (Nat.lt_ge_cases j n) as [Hj | Hj].
  - rewrite (tags_upto_nth Hj) in E. injection E as E. lia.
  - assert (Hn : nth_error (tags_upto n) j = None).
    { apply nth_error_None. now rewrite tags_upto_length. }
    congruence.
Qed.

Lemma mirrors_points_length t :
  mirrors t -> length (Gmsh.points (model t)) = length (shapely_points t).
Proof.
  intros (_ & H & _). apply (f_equal (@length _)) in H.
  now rewrite !length_map in H.
Qed.

Lemma mirrors_consistent t : mirrors t -> consistent t.
Proof.
  intros (Hp & _ & Hl & _).
  split; [rewrite Hp | rewrite Hl]; now rewrite tags_upto_length.
Qed.

Lemma get_point_index_stable t t' p j ps :
  get_point_index t p = Some j ->
  shapely_points t' = shapely_points t ++ ps ->
  atol t' = atol t ->
  get_point_index t' p = Some j.
Proof.
  unfold get_point_index. intros H Hs Ha. now rewrite Hs, Ha, scan_points_app, H.
Qed.

Lemma joined_stable t t' ps :
  joined t ->
  shapely_points t' = shapely_points t ++ ps ->
  atol t' = atol t ->
  shapely_xy_lines t' = shapely_xy_lines t ->
  Gmsh.lines (model t') = Gmsh.lines (model t) ->
  joined t'.
Proof.
  intros Hj Hs Ha Hl Hm i l Hn. rewrite Hl in Hn.
  destruct (Hj i l Hn) as (p1 & p2 & j1 & j2 & El & H1 & H2 & H3).
  exists p1, p2, j1, j2. rewrite Hm. repeat split; auto.
  - exact (@get_point_index_stable t t' p1 j1 ps H1 Hs Ha).
  - exact (@get_point_index_stable t t' p2 j2 ps H2 Hs Ha).
Qed.

(** On a sound tracker [add_get_point] answers with the tag of the index at
    which the point is found afterwards. *)
Lemma sound_add_get_point p resolution t :
  sound t ->
  exists j t1,
    add_get_point p resolution t = (Return (Z.of_nat (S j)), t1)
    /\ get_point_index t1 p = Some j
    /\ sound t1
    /\ (exists ps, shapely_points t1 = shapely_points t ++ ps)
    /\ atol t1 = atol t
    /\ shapely_xy_lines t1 = shapely_xy_lines t
    /\ gmsh_xy_lines t1 = gmsh_xy_lines t
    /\ Gmsh.lines (model t1) = Gmsh.lines (model t).
Proof.
  intros (Hm & Hj & Ha). unfold add_get_point.
  destruct (get_point_index t p) as [i |] eqn:Hi.
  - pose proof (scan_points_spec (atol t) p (shapely_points t) 0) as Hs.
    unfold get_point_index in Hi. rewrite Hi in Hs.
    destruct Hs as (j & q & -> & Hn & _). simpl.
    assert (Hlt : j < length (shapely_points t)).
    { apply nth_error_Some. congruence. }
    pose proof Hm as (Hp & _). rewrite Hp, (tags_upto_nth Hlt).
    exists j, t. split; [reflexivity |]. split; [exact Hi |].
    split; [exact (conj Hm (conj Hj Ha)) |].
    split; [exists []; now rewrite app_nil_r |]. repeat split.
  - simpl. exists (length (shapely_points t)). eexists.
    split.
    { unfold Gmsh.next_tag. rewrite (mirrors_points_length Hm). reflexivity. }
    split.
    { unfold get_point_index in *. simpl.
      rewrite scan_points_app, Hi. simpl.
      now rewrite (Point_equals_exact_refl p Ha). }
    split.
    { destruct Hm as (Hp & Hc & Hl & Hn). repeat split; simpl.
      - rewrite length_app, Nat.add_1_r, tags_upto_S, Hp. reflexivity.
      - rewrite !map_app, Hc. reflexivity.
      - exact Hl.
      - exact Hn.
      - apply (@joined_stable t _ [p] Hj); reflexivity.
      - exact Ha. }
    split; [exists [p]; reflexivity |]. repeat split.
Qed.

Lemma sound_add_get_xy_line p1 p2 : respects (kept sound) (add_get_xy_line p1 p2).
Proof.
  intros t Hs. unfold add_get_xy_line.
  destruct (get_xy_line_index_and_orientation t p1 p2) as [[[i |] o] | e].
  - destruct (nth_error (gmsh_xy_lines t) i); exact Hs.
  - destruct (sound_add_get_point p1 None Hs)
      as (j1 & t1 & E1 & G1 & S1 & _ & _ & _ & _ & _).
    destruct (sound_add_get_point p2 None S1)
      as (j2 & t2 & E2 & G2 & S2 & (ps & P2) & A2 & _ & _ & _).
    pose proof (@get_point_index_stable t1 t2 p1 j1 ps G1 P2 A2) as G1'.
    unfold bind. rewrite E1, E2. simpl.
    destruct S2 as ((Hp & Hc & Hl & Hn) & Hj & Ha).
    repeat split; simpl; auto.
    + rewrite length_app, Nat.add_1_r, tags_upto_S, Hl.
      unfold Gmsh.next_tag. now rewrite Hn.
    + rewrite !length_app, Hn. reflexivity.
    + intros i l Hi. simpl in Hi.
      destruct (Nat.lt_ge_cases i (length (shapely_xy_lines t2))) as [Hlt | Hge].
      * rewrite nth_error_app1 in Hi by exact Hlt.
        destruct (Hj i l Hi) as (q1 & q2 & k1 & k2 & El & H1 & H2 & H3).
        exists q1, q2, k1, k2. repeat split; auto.
        simpl. rewrite nth_error_app1 by (rewrite Hn; exact Hlt). exact H3.
      * rewrite nth_error_app2 in Hi by exact Hge.
        destruct (i - length (shapely_xy_lines t2)) as [| d] eqn:Hd;
          [| destruct d; discriminate].
        injection Hi as <-.
        exists p1, p2, j1, j2. repeat split; auto.
        simpl. rewrite nth_error_app2 by (rewrite Hn; exact Hge).
        rewrite Hn, Hd. reflexivity.
  - exact Hs.
Qed.

Lemma sound_set_model t m :
  Gmsh.points m = Gmsh.points (model t) ->
  Gmsh.lines m = Gmsh.lines (model t) ->
  sound t -> sound (set_model m t).
Proof.
  intros Hp Hl ((H1 & H2 & H3 & H4) & Hj & Ha).
  repeat split; simpl; auto.
  - now rewrite Hp.
  - now rewrite Hl.
  - apply (@joined_stable t _ [] Hj); simpl; auto. now rewrite app_nil_r.
Qed.

Lemma sound_init lmin lmax :
  sound (MeshTracker_init (Gmsh.Geometry lmin lmax) default_atol).
Proof.
  repeat split; simpl.
  - intros i l Hn. destruct i; discriminate.
  - unfold default_atol. discriminate.
Qed.

Lemma mesh_from_polygons_sound difference polygon_dict resolutions lmin lmax :
  sound (snd (mesh_from_polygons difference polygon_dict resolutions lmin lmax)).
Proof.
  apply kept_mesh_from_polygons; [| exact sound_add_get_xy_line
                                   | exact sound_set_model | apply sound_init].
  intros p resolution t Hs.
  destruct (sound_add_get_point p resolution Hs) as (j & t1 & E & _ & S1 & _).
  now rewrite E.
Qed.

(** X7. At the end of every build, whatever its outcome, the registry
    mirrors the model: the i-th registered point and the i-th registered
    segment carry the tags i+1, so no two entries share a handle; the model
    holds exactly the registered points, with their coordinates and in their
    order, and as many lines as there are registered segments. *)
Theorem mesh_from_polygons_mirrors
    (difference : Geometry -> Geometry -> Geometry)
    (polygon_dict : OrderedDict Geometry) (resolutions : option (OrderedDict Q))
    (default_resolution_min default_resolution_max : Q) :
  let t := snd (mesh_from_polygons difference polygon_dict resolutions
                  default_resolution_min default_resolution_max) in
  mirrors t /\ NoDup (gmsh_points t) /\ NoDup (gmsh_xy_lines t).
Proof.
  intros t.
  destruct (mesh_from_polygons_sound difference polygon_dict resolutions
              default_resolution_min default_resolution_max) as (Hm & _).
  fold t in Hm. split; [exact Hm |].
  destruct Hm as (Hp & _ & Hl & _). rewrite Hp, Hl.
  split; apply tags_upto_NoDup.
Qed.



(** ** Where the points of a surface come from *)

Lemma adds_points_with_refl resolution t : adds_points_with resolution t t.
Proof.
  split; [reflexivity |]. split.
  - exists []. now rewrite app_nil_r.
  - exists []. split; [now rewrite app_nil_r | constructor].
Qed.

Lemma adds_points_with_trans resolution t1 t2 t3 :
  adds_points_with resolution t1 t2 -> adds_points_with resolution t2 t3 ->
  adds_points_with resolution t1 t3.
Proof.
  intros (Ha & (ps & Hp) & (ad & Hm & Hf)) (Ha' & (ps' & Hp') & (ad' & Hm' & Hf')).
  split; [congruence |]. split.
  - exists (ps ++ ps'). now rewrite Hp', Hp, app_assoc.
  - exists (ad ++ ad'). split; [now rewrite Hm', Hm, app_assoc |].
    apply Forall_app. auto.
Qed.

Lemma same_points_adds resolution t t' :
  same_points t t' -> adds_points_with resolution t t'.
Proof.
  intros (Hp & Hm & Ha). split; [exact Ha |]. split.
  - exists []. now rewrite app_nil_r.
  - exists []. split; [now rewrite app_nil_r | constructor].
Qed.

Lemma same_points_refl t : same_points t t.
Proof. repeat split. Qed.

Lemma same_points_trans t1 t2 t3 :
  same_points t1 t2 -> same_points t2 t3 -> same_points t1 t3.
Proof. unfold same_points. intuition congruence. Qed.

Lemma known_same_points t t' p : same_points t t' -> known t p -> known t' p.
Proof.
  intros (Hp & _ & Ha) (i & Hi). exists i.
  unfold get_point_index in *. now rewrite Hp, Ha.
Qed.

Lemma known_adds resolution t t' p :
  adds_points_with resolution t t' -> known t p -> known t' p.
Proof.
  intros (Ha & (ps & Hp) & _) (i & Hi). exists i.
  exact (@get_point_index_stable t t' p i ps Hi Hp Ha).
Qed.

Lemma add_get_point_adds p resolution :
  respects (adds_points_with resolution) (add_get_point p resolution).
Proof.
  intros t. unfold add_get_point.
  destruct (get_point_index t p) as [i |].
  - destruct (nth_error (gmsh_points t) i); apply adds_points_with_refl.
  - simpl. split; [reflexivity |]. split.
    + exists [p]. reflexivity.
    + exists [(xcoord p, ycoord p, resolution)]. split; [reflexivity |].
      constructor; [reflexivity | constructor].
Qed.

(** Whatever [add_get_point] answers, the point is known afterwards. *)
Lemma add_get_point_known p resolution t :
  (0 <= atol t)%Q -> known (snd (add_get_point p resolution t)) p.
Proof.
  intros Ha. unfold add_get_point.
  destruct (get_point_index t p) as [i |] eqn:Hi.
  - destruct (nth_error (gmsh_points t) i); exists i; exact Hi.
  - simpl. exists (length (shapely_points t)).
    unfold get_point_index in *. simpl.
    rewrite scan_points_app, Hi. simpl.
    now rewrite (Point_equals_exact_refl p Ha).
Qed.

(** A known point is retrieved, never added. *)
Lemma add_get_point_same_points p resolution t :
  known t p -> same_points t (snd (add_get_point p resolution t)).
Proof.
  intros (i & Hi). unfold add_get_point. rewrite Hi.
  destruct (nth_error (gmsh_points t) i); apply same_points_refl.
Qed.

Lemma add_get_xy_line_same_points p1 p2 t :
  known t p1 -> known t p2 ->
  same_points t (snd (add_get_xy_line p1 p2 t)).
Proof.
  intros K1 K2. unfold add_get_xy_line.
  destruct (get_xy_line_index_and_orientation t p1 p2) as [[[i |] o] | e].
  - destruct (nth_error (gmsh_xy_lines t) i); apply same_points_refl.
  - unfold bind.
    pose proof (add_get_point_same_points None K1) as S1.
    destruct (add_get_point p1 None t) as [[h1 | e1] t1]; simpl in S1; [| exact S1].
    pose proof (add_get_point_same_points None (known_same_points S1 K2)) as S2.
    destruct (add_get_point p2 None t1) as [[h2 | e2] t2]; simpl in S2.
    + simpl. apply (same_points_trans S1). apply (same_points_trans S2).
      repeat split.
    + simpl. exact (same_points_trans S1 S2).
  - apply same_points_refl.
Qed.

Lemma collect_edges_same_points pairs :
  forall edges t,
    Forall (fun pair => known t (fst pair) /\ known t (snd pair)) pairs ->
    same_points t (snd (collect_edges pairs edges t)).
Proof.
  induction pairs as [| [v1 v2] rest IH]; intros edges t Hk.
  - apply same_points_refl.
  - inversion Hk as [| x xs [K1 K2] Hrest]; subst. simpl in K1, K2.
    simpl. unfold bind.
    pose proof (add_get_xy_line_same_points K1 K2) as S1.
    destruct (add_get_xy_line v1 v2 t) as [[[l o] | e] t1]; simpl in S1;
      [| exact S1].
    apply (same_points_trans S1). apply IH.
    eapply Forall_impl; [| exact Hrest].
    intros pair [Ka Kb]. split; eapply known_same_points; eauto.
Qed.

Lemma consecutive_pairs_Forall (P : Point -> Prop) vertices :
  Forall P vertices ->
  Forall (fun pair => P (fst pair) /\ P (snd pair)) (consecutive_pairs vertices).
Proof.
  induction vertices as [| v1 vs IH]; intros H; [constructor |].
  destruct vs as [| v2 rest]; [constructor |].
  change (consecutive_pairs (v1 :: v2 :: rest))
    with ((v1, v2) :: consecutive_pairs (v2 :: rest)).
  inversion H as [| x xs H1 H2]; subst.
  constructor; [| apply IH; exact H2].
  inversion H2; subst. simpl. auto.
Qed.

(** Building a loop over known vertices registers no point. *)
Lemma xy_channel_loop_from_vertices_same_points vertices t :
  Forall (known t) vertices ->
  same_points t (snd (xy_channel_loop_from_vertices vertices t)).
Proof.
  intros Hk. unfold xy_channel_loop_from_vertices, bind.
  pose proof (@collect_edges_same_points (consecutive_pairs vertices) [] t
                (consecutive_pairs_Forall Hk)) as S1.
  destruct (collect_edges (consecutive_pairs vertices) [] t) as [[es | e] t1];
    simpl in S1; [| exact S1].
  apply (same_points_trans S1). repeat split.
Qed.

Lemma register_vertices_adds resolution coords :
  forall vertices t o t1,
    (0 <= atol t)%Q ->
    register_vertices coords resolution vertices t = (o, t1) ->
    adds_points_with resolution t t1
    /\ forall vs, o = Return vs -> vs = vertices ++ coords /\ Forall (known t1) coords.
Proof.
  induction coords as [| v rest IH]; intros vertices t o t1 Ha H.
  - injection H as <- <-. split; [apply adds_points_with_refl |].
    intros vs [= <-]. now rewrite app_nil_r.
  - simpl in H. unfold bind in H.
    pose proof (add_get_point_adds v resolution t) as A1.
    pose proof (@add_get_point_known v resolution t Ha) as K1.
    destruct (add_get_point v resolution t) as [[h | e] t0]; simpl in A1, K1.
    + assert (Ha0 : (0 <= atol t0)%Q) by (destruct A1 as (-> & _); exact Ha).
      destruct (IH (vertices ++ [v]) t0 o t1 Ha0 H) as (A2 & Hvs).
      split; [exact (adds_points_with_trans A1 A2) |].
      intros vs Hret. destruct (Hvs vs Hret) as (-> & Hk).
      split; [now rewrite <- app_assoc |].
      constructor; [exact (known_adds A2 K1) | exact Hk].
    + injection H as <- <-. split; [exact A1 | discriminate].
Qed.

Lemma parse_holes_adds resolution holes :
  forall hole_loops t,
    (0 <= atol t)%Q ->
    adds_points_with resolution t (snd (parse_holes holes resolution hole_loops t)).
Proof.
  induction holes as [| hole rest IH]; intros hole_loops t Ha.
  - apply adds_points_with_refl.
  - simpl. unfold bind.
    destruct (register_vertices hole resolution [] t) as [o t1] eqn:E1.
    destruct (@register_vertices_adds resolution hole [] t o t1 Ha E1) as (A1 & Hvs).
    destruct o as [vs | e]; [| exact A1].
    destruct (Hvs vs eq_refl) as (-> & Hk). simpl in *.
    pose proof (xy_channel_loop_from_vertices_same_points Hk) as S2.
    destruct (xy_channel_loop_from_vertices hole t1) as [[l | e] t2]; simpl in S2.
    + apply (adds_points_with_trans A1).
      apply (adds_points_with_trans (same_points_adds resolution S2)).
      apply IH. destruct S2 as (_ & _ & ->). destruct A1 as (-> & _). exact Ha.
    + exact (adds_points_with_trans A1 (same_points_adds resolution S2)).
Qed.

(** X9. With a tolerance that is not negative, [add_xy_surface] adds points
    to the model only while it registers the ring vertices, so every point it
    adds carries the resolution it was called with; the segments of the
    loops find both their end points registered and add none. This holds
    whatever the outcome of the call. *)
Theorem add_xy_surface_points_resolution (t : MeshTracker) (g : Geometry)
    (resolution : option Q) :
  (0 <= atol t)%Q ->
  let t' := snd (add_xy_surface g resolution t) in
  exists added,
    Gmsh.points (model t') = Gmsh.points (model t) ++ added
    /\ Forall (fun pt => snd pt = resolution) added.
Proof.
  intros Ha t'.
  assert (H : adds_points_with resolution t t').
  { subst t'. destruct g as [polygon | parts]; [| apply adds_points_with_refl].
    simpl. unfold bind.
    pose proof (@parse_holes_adds resolution (interiors polygon) [] t Ha) as A1.
    destruct (parse_holes (interiors polygon) resolution [] t) as [[hl | e] t1];
      simpl in A1; [| exact A1].
    assert (Ha1 : (0 <= atol t1)%Q) by (destruct A1 as (-> & _); exact Ha).
    destruct (register_vertices (exterior polygon) resolution [] t1) as [o t2] eqn:E2.
    destruct (@register_vertices_adds resolution (exterior polygon) [] t1 o t2 Ha1 E2)
      as (A2 & Hvs).
    destruct o as [vs | e]; [| exact (adds_points_with_trans A1 A2)].
    destruct (Hvs vs eq_refl) as (-> & Hk). simpl in *.
    pose proof (xy_channel_loop_from_vertices_same_points Hk) as S3.
    apply (adds_points_with_trans A1). apply (adds_points_with_trans A2).
    destruct (xy_channel_loop_from_vertices (exterior polygon) t2) as [[l | e] t3];
      simpl in S3.
    - apply (adds_points_with_trans (same_points_adds resolution S3)).
      simpl. apply same_points_adds. repeat split.
    - exact (same_points_adds resolution S3). }
  destruct H as (_ & _ & H). exact H.
Qed.

Lemma add_xy_surface_points_resolution_witness :
  exists added,
    Gmsh.points (model (snd (add_xy_surface unit_square (Some (1 # 100)%Q)
                               tracker_with_origin)))
    = Gmsh.points (model tracker_with_origin) ++ added
    /\ Forall (fun pt => snd pt = Some (1 # 100)%Q) added.
Proof.
  apply (@add_xy_surface_points_resolution tracker_with_origin unit_square
           (Some (1 # 100)%Q)).
  vm_compute. discriminate.
Defined.

(** ** Surfaces with holes *)

Lemma same_labels_refl t : same_labels t t.
Proof. split; reflexivity. Qed.

Lemma same_labels_trans t1 t2 t3 :
  same_labels t1 t2 -> same_labels t2 t3 -> same_labels t1 t3.
Proof. unfold same_labels. intuition congruence. Qed.

Lemma same_surfaces_labels t t' : same_surfaces t t' -> same_labels t t'.
Proof. intros (_ & H1 & H2). split; assumption. Qed.








(** ** The edges of a loop *)

Lemma scan_lines_miss_orientation tol xy_line ls :
  forall k o, scan_lines tol xy_line ls k = Return (None, o) -> o = PyInt 1.
Proof.
  induction ls as [| a rest IH]; intros k o.
  - simpl. congruence.
  - rewrite scan_lines_cons.
    destruct (LineString_equals_exact xy_line a tol); [| apply IH].
    destruct (boundary xy_line) as [| x [| y [| z r]]]; try discriminate.
    destruct (boundary a) as [| x' [| y' [| z' r']]]; try discriminate.
    destruct (Point_equals_exact x x' tol); discriminate.
Qed.

(** Whatever segment handle [add_get_xy_line] returns is registered, and its
    orientation is true. *)
Lemma add_get_xy_line_handle p1 p2 t l o t' :
  add_get_xy_line p1 p2 t = (Return (l, o), t') ->
  truthy o = true /\ In l (gmsh_xy_lines t').
Proof.
  unfold add_get_xy_line.
  destruct (get_xy_line_index_and_orientation t p1 p2) as [[[i |] o'] | e] eqn:E.
  - destruct (nth_error (gmsh_xy_lines t) i) as [h |] eqn:Hh; [| discriminate].
    intros [= <- <- <-]. apply scan_lines_never_reversed in E. subst o'.
    split; [reflexivity | exact (nth_error_In _ _ Hh)].
  - apply scan_lines_miss_orientation in E. subst o'.
    unfold bind.
    destruct (add_get_point p1 None t) as [[h1 | e1] t1]; [| discriminate].
    destruct (add_get_point p2 None t1) as [[h2 | e2] t2]; [| discriminate].
    simpl. intros [= <- <- <-]. split; [reflexivity |].
    simpl. apply in_or_app. right. now left.
  - discriminate.
Qed.

Lemma grows_handles t t' e :
  grows t t' -> In e (gmsh_xy_lines t) -> In e (gmsh_xy_lines t').
Proof.
  intros (_ & (ls & ks & _ & Hk & _) & _) Hin. rewrite Hk.
  apply in_or_app. now left.
Qed.

Lemma collect_edges_handles pairs :
  forall edges t es t',
    collect_edges pairs edges t = (Return es, t') ->
    exists new,
      es = edges ++ new
      /\ length new = length pairs
      /\ Forall (fun e => In e (gmsh_xy_lines t')) new.
Proof.
  induction pairs as [| [v1 v2] rest IH]; intros edges t es t' H.
  - injection H as <- <-. exists []. rewrite app_nil_r. repeat split. constructor.
  - simpl in H. unfold bind in H.
    destruct (add_get_xy_line v1 v2 t) as [[[l o] | e] t1] eqn:E; [| discriminate].
    destruct (add_get_xy_line_handle _ _ _ E) as (Ho & Hin).
    rewrite Ho in H.
    destruct (IH _ _ _ _ H) as (new & -> & Hlen & Hall).
    exists (l :: new). split; [now rewrite <- app_assoc |].
    split; [simpl; now rewrite Hlen |].
    constructor; [| exact Hall].
    pose proof (collect_edges_grows rest (edges ++ [l]) t1) as Hg.
    rewrite H in Hg. exact (@grows_handles t1 t' l Hg Hin).
Qed.

(** X11. Whenever the loop builder returns, the loop it hands to the model
    has one edge per consecutive pair of vertices, and every edge is the
    handle of a registered segment as it stands: no edge is ever negated. *)
Theorem xy_channel_loop_from_vertices_edges (t : MeshTracker) (vertices : list Point)
    (loop : Z) (t' : MeshTracker) :
  xy_channel_loop_from_vertices vertices t = (Return loop, t') ->
  exists edges,
    Gmsh.curve_loops (model t') = Gmsh.curve_loops (model t) ++ [edges]
    /\ loop = Gmsh.next_tag (Gmsh.curve_loops (model t))
    /\ length edges = length vertices - 1
    /\ Forall (fun e => In e (gmsh_xy_lines t')) edges.
Proof.
  unfold xy_channel_loop_from_vertices, bind. intros H.
  destruct (collect_edges (consecutive_pairs vertices) [] t) as [[es | e] t1] eqn:E;
    [| discriminate].
  pose proof (collect_edges_same_surfaces (consecutive_pairs vertices) [] t) as Hs.
  rewrite E in Hs. destruct Hs as (Hloops & _). simpl in Hloops.
  destruct (collect_edges_handles _ _ _ E) as (new & -> & Hlen & Hall).
  unfold on_model in H. simpl in H. injection H as <- <-.
  exists new. simpl. rewrite Hloops. repeat split; auto.
  now rewrite Hlen, consecutive_pairs_length.
Qed.

Lemma xy_channel_loop_from_vertices_edges_witness :
  exists edges,
    Gmsh.curve_loops
      (model (snd (xy_channel_loop_from_vertices [corner00; corner10; corner00]
                     fresh_tracker)))
    = [edges]
    /\ length edges = 2
    /\ Forall (fun e => In e [1%Z; 2%Z]) edges.
Proof.
  destruct (@xy_channel_loop_from_vertices_edges fresh_tracker
              [corner00; corner10; corner00] 1%Z
              (snd (xy_channel_loop_from_vertices [corner00; corner10; corner00]
                      fresh_tracker)) eq_refl)
    as (edges & H1 & _ & H2 & H3).
  exists edges. split; [exact H1 | split; [exact H2 | exact H3]].
Defined.

(** ** The labels of a build *)

Lemma lookup_resolution_state resolutions polygon_name t :
  snd (lookup_resolution resolutions polygon_name t) = t.
Proof.
  unfold lookup_resolution.
  destruct resolutions as [table |]; [| reflexivity].
  destruct (contains polygon_name table); [| reflexivity].
  destruct (getitem polygon_name table); reflexivity.
Qed.

Lemma parse_holes_same_labels holes resolution hole_loops :
  respects same_labels (parse_holes holes resolution hole_loops).
Proof.
  apply respects_parse_holes;
    solve [ apply same_labels_refl | apply same_labels_trans
          | intros; repeat split ].
Qed.

Lemma register_vertices_same_labels coords resolution vertices :
  respects same_labels (register_vertices coords resolution vertices).
Proof.
  apply respects_register_vertices;
    solve [ apply same_labels_refl | apply same_labels_trans
          | intros; repeat split ].
Qed.

Lemma xy_channel_loop_from_vertices_same_labels vertices :
  respects same_labels (xy_channel_loop_from_vertices vertices).
Proof.
  apply respects_xy_channel_loop_from_vertices;
    solve [ apply same_labels_refl | apply same_labels_trans
          | intros; repeat split ].
Qed.

(** A surface that is returned is the next one of the model, and the only
    one the call adds; the call attaches no label. *)
Lemma add_xy_surface_returns_tag g resolution t s t' :
  add_xy_surface g resolution t = (Return s, t') ->
  s = Gmsh.next_tag (Gmsh.plane_surfaces (model t))
  /\ (exists entry,
         Gmsh.plane_surfaces (model t') = Gmsh.plane_surfaces (model t) ++ [entry])
  /\ Gmsh.physicals (model t') = Gmsh.physicals (model t).
Proof.
  destruct g as [polygon | parts]; [| discriminate].
  simpl. unfold bind.
  pose proof (parse_holes_same_labels (interiors polygon) resolution [] t) as S1.
  destruct (parse_holes (interiors polygon) resolution [] t) as [[hl | e] t1];
    [| discriminate].
  pose proof (register_vertices_same_labels (exterior polygon) resolution [] t1) as S2.
  destruct (register_vertices (exterior polygon) resolution [] t1) as [[vs | e] t2];
    [| discriminate].
  pose proof (xy_channel_loop_from_vertices_same_labels vs t2) as S3.
  destruct (xy_channel_loop_from_vertices vs t2) as [[l | e] t3]; [| discriminate].
  simpl in S1, S2, S3.
  destruct S1 as (A1 & B1). destruct S2 as (A2 & B2). destruct S3 as (A3 & B3).
  unfold on_model. simpl. intros [= <- <-]. simpl.
  rewrite A3, A2, A1, B3, B2, B1. split; [reflexivity |].
  split; [eexists; reflexivity | reflexivity].
Qed.

Lemma surface_labels_cons first name names :
  surface_labels first (name :: names)
  = (Gmsh.Surface, Z.of_nat (S first), name) :: surface_labels (S first) names.
Proof. reflexivity. Qed.

Lemma curve_labels_cons first line gmsh_lines :
  curve_labels first (line :: gmsh_lines)
  = (Gmsh.Curve, line, line_label first) :: curve_labels (S first) gmsh_lines.
Proof. reflexivity. Qed.

Lemma add_surfaces_labels resolutions items :
  forall t u t',
    add_surfaces items resolutions t = (Return u, t') ->
    Gmsh.physicals (model t')
    = Gmsh.physicals (model t)
      ++ surface_labels (length (Gmsh.plane_surfaces (model t))) (keys items)
    /\ length (Gmsh.plane_surfaces (model t'))
       = length (Gmsh.plane_surfaces (model t)) + length items.
Proof.
  induction items as [| [name g] rest IH]; intros t u t' H.
  - injection H as _ <-. simpl. rewrite app_nil_r. split; [reflexivity | lia].
  - rewrite add_surfaces_cons in H. unfold bind in H.
    pose proof (lookup_resolution_state resolutions name t) as Hst.
    destruct (lookup_resolution resolutions name t) as [[r | e] t0];
      [| discriminate].
    simpl in Hst. subst t0.
    destruct (add_xy_surface g r t) as [[s | e] t1] eqn:EA; [| discriminate].
    destruct (add_xy_surface_returns_tag _ _ _ EA) as (-> & (entry & Hps) & Hph).
    unfold update_model in H.
    destruct (IH _ _ _ H) as (Hphys & Hlen). simpl in Hphys, Hlen.
    rewrite Hphys, Hlen, Hps, Hph, length_app. simpl length.
    unfold keys. simpl map. rewrite surface_labels_cons, <- app_assoc.
    rewrite Nat.add_1_r. unfold Gmsh.next_tag. split; [reflexivity | lia].
Qed.

Lemma label_lines_labels gmsh_lines :
  forall i t,
    exists t',
      label_lines gmsh_lines i t = (Return tt, t')
      /\ Gmsh.physicals (model t') = Gmsh.physicals (model t) ++ curve_labels i gmsh_lines
      /\ gmsh_xy_lines t' = gmsh_xy_lines t
      /\ Gmsh.plane_surfaces (model t') = Gmsh.plane_surfaces (model t)
      /\ Gmsh.duplicates_removed (model t') = Gmsh.duplicates_removed (model t).
Proof.
  induction gmsh_lines as [| line rest IH]; intros i t.
  - exists t. simpl. rewrite app_nil_r. repeat split.
  - destruct (IH (S i)
                (set_model (Gmsh.add_physical Gmsh.Curve line (line_label i) (model t)) t))
      as (t' & E & Hphys & Hl & Hps & Hd).
    exists t'. split; [exact E |]. simpl in Hphys, Hl, Hps, Hd.
    rewrite Hphys, curve_labels_cons, <- app_assoc. repeat split; assumption.
Qed.

Lemma tiled_keys (G : Type) (difference : G -> G -> G) (polygon_dict : OrderedDict G) :
  NoDup (keys polygon_dict) ->
  keys (rev (polygons_tiled difference polygon_dict)) = keys polygon_dict.
Proof.
  intros Hnd. rewrite (@polygons_tiled_items G difference polygon_dict Hnd).
  unfold keys. rewrite map_rev, map_map.
  change (rev (map (@item_name G) (rev (enumerate polygon_dict)))
          = map fst polygon_dict).
  rewrite map_rev, rev_involutive. apply item_names.
Qed.

(** X12. A build that returns has attached, in this order, one surface label
    per region, in input order, the i-th region's name on surface i+1, and
    then one label per registry line, [line_i] on the i-th line handle; the
    model holds exactly one surface per region, duplicates have been removed
    and the mesh has been generated in two dimensions. *)
Theorem mesh_from_polygons_labels
    (difference : Geometry -> Geometry -> Geometry)
    (polygon_dict : OrderedDict Geometry) (resolutions : option (OrderedDict Q))
    (default_resolution_min default_resolution_max : Q)
    (m : Gmsh.model) (t : MeshTracker) :
  NoDup (keys polygon_dict) ->
  mesh_from_polygons difference polygon_dict resolutions
    default_resolution_min default_resolution_max = (Return m, t) ->
  m = model t
  /\ Gmsh.physicals m
     = surface_labels 0 (keys polygon_dict) ++ curve_labels 0 (gmsh_xy_lines t)
  /\ length (Gmsh.plane_surfaces m) = length polygon_dict
  /\ Gmsh.duplicates_removed m = true
  /\ Gmsh.mesh_generated m = Some 2.
Proof.
  intros Hnd. unfold mesh_from_polygons.
  set (t0 := MeshTracker_init
               (Gmsh.Geometry default_resolution_min default_resolution_max)
               default_atol).
  destruct (build difference polygon_dict resolutions t0) as [[u | e] t1] eqn:EB;
    [| discriminate].
  intros [= <- <-]. split; [reflexivity |].
  unfold build, bind in EB.
  destruct (add_surfaces (rev (polygons_tiled difference polygon_dict)) resolutions t0)
    as [[u1 | e] ta] eqn:EA; [| discriminate].
  destruct (@add_surfaces_labels resolutions _ t0 u1 ta EA) as (Hphys & Hlen).
  rewrite (@tiled_keys Geometry difference polygon_dict Hnd) in Hphys.
  assert (Hn : length (rev (polygons_tiled difference polygon_dict))
               = length polygon_dict).
  { pose proof (@tiled_keys Geometry difference polygon_dict Hnd) as Hk.
    apply (f_equal (@length _)) in Hk. unfold keys in Hk.
    now rewrite !length_map in Hk. }
  rewrite Hn in Hlen. simpl in Hphys, Hlen.
  unfold update_model in EB.
  destruct (label_lines_labels
              (gmsh_xy_lines (set_model (Gmsh.removeAllDuplicates (model ta)) ta)) 0
              (set_model (Gmsh.removeAllDuplicates (model ta)) ta))
    as (tc & EL & Hphys' & Hl' & Hps' & Hd').
  rewrite EL in EB. injection EB as _ <-. simpl in *.
  rewrite Hphys', Hphys, Hps', Hlen, Hd', Hl'. repeat split.
Qed.

Lemma mesh_from_polygons_labels_witness :
  let t := snd (mesh_from_polygons difference_of_disjoint
                  [("left"%string, unit_square); ("right"%string, right_square)]
                  (Some []) (1 # 100) (1 # 10)) in
  Gmsh.physicals (model t)
  = surface_labels 0 ["left"%string; "right"%string]
    ++ curve_labels 0 (gmsh_xy_lines t).
Proof.
  intros t.
  destruct (@mesh_from_polygons_labels difference_of_disjoint
              [("left"%string, unit_square); ("right"%string, right_square)]
              (Some []) (1 # 100) (1 # 10) (model t) t) as (_ & H & _).
  - repeat constructor; simpl; intuition discriminate.
  - subst t. vm_compute. reflexivity.
  - exact H.
Defined.

(** ** Stacks in which nothing is clipped *)





